(** * Live ledger entries: the incremental aggregation engine of [src/App.tsx]

    A shallow embedding of the three pieces of [App.tsx] that carry the
    program's logic, and the properties of the specification proved (or
    refuted) against them:

    - [uniqNodes] (lines 32-36): deduplication through a JavaScript [Map];
    - [transactionHandler] and [ledgerClosedHandler] (lines 55-103): the
      handlers that mutate the shared object [lastNodes] and publish it to
      the component state;
    - [nodesByLedgerEntryType] (lines 132-138): the per-entry-type filter.

    Numbers are ledger indexes, hence integers: [Z].  Arrays are lists.
    A JavaScript [Map] is an association list in insertion order.  Objects
    that are shared by reference live in a store ([gmap] from locations). *)

From stdpp Require Import gmap strings list.
From Stdlib Require Import ZArith Lia.

Open Scope Z_scope.

(** ** JavaScript's [Map], as far as [uniqNodes] uses it

    A [Map] remembers the order in which its keys were first inserted;
    [set] on a key already present replaces the value and keeps the key's
    place.  [new Map(entries)] calls [set] for every entry from left to
    right, [values()] iterates in insertion order. *)

Module JSMap.
Section js_map.
Context {K V : Type} `{EqDecision K}.

Fixpoint set (k : K) (v : V) (m : list (K * V)) : list (K * V) :=
  match m with
  | [] => [(k, v)]
  | (k', v') :: m' =>
      if decide (k' = k) then (k', v) :: m' else (k', v') :: set k v m'
  end.

Definition new_Map (entries : list (K * V)) : list (K * V) :=
  foldl (fun m e => set e.1 e.2 m) [] entries.

Definition keys (m : list (K * V)) : list K := m.*1.

Definition values (m : list (K * V)) : list V := m.*2.

(** [Map.prototype.get]; the program does not call it, the proofs
    compare maps through it. *)
Fixpoint get (k : K) (m : list (K * V)) : option V :=
  match m with
  | [] => None
  | (k', v') :: m' => if decide (k' = k) then Some v' else get k m'
  end.
End js_map.
End JSMap.

(** ** The records of the program *)

(** The element type of the three collections:
    [{ LedgerEntryType: string; index: string }]. *)
Record Node : Type := mkNode {
  LedgerEntryType : string;
  index : string
}.

#[global] Instance Node_eq_dec : EqDecision Node.
Proof. solve_decision. Defined.

(** The type of [nodes] and of [lastNodes]:
    [{ ledgerIndex: number } & Record<'created' | 'modified' | 'deleted', Node[]>]. *)
Record Nodes : Type := mkNodes {
  ledgerIndex : Z;
  created : list Node;
  modified : list Node;
  deleted : list Node
}.

#[global] Instance Nodes_eq_dec : EqDecision Nodes.
Proof. solve_decision. Defined.

Definition set_ledgerIndex (i : Z) (o : Nodes) : Nodes :=
  mkNodes i (created o) (modified o) (deleted o).
Definition set_created (l : list Node) (o : Nodes) : Nodes :=
  mkNodes (ledgerIndex o) l (modified o) (deleted o).
Definition set_modified (l : list Node) (o : Nodes) : Nodes :=
  mkNodes (ledgerIndex o) (created o) l (deleted o).
Definition set_deleted (l : list Node) (o : Nodes) : Nodes :=
  mkNodes (ledgerIndex o) (created o) (modified o) l.

(** The object literal of lines 46 and 49-54. *)
Definition initialNodes : Nodes := mkNodes 0 [] [] [].

(** ** What the handlers read of the [xrpl] package's stream types

    An affected node is an object with exactly one of the keys
    [CreatedNode], [ModifiedNode], [DeletedNode]; under each key the
    handler reads [LedgerEntryType] and [LedgerIndex].  [isCreatedNode]
    and its siblings test which key the object owns. *)

Module xrpl.
Record Fields : Type := mkFields {
  LedgerEntryType : string;
  LedgerIndex : string
}.

Inductive AffectedNode : Type :=
| CreatedNode (f : Fields)
| ModifiedNode (f : Fields)
| DeletedNode (f : Fields).

Definition isCreatedNode (n : AffectedNode) : bool :=
  match n with CreatedNode _ => true | _ => false end.
Definition isModifiedNode (n : AffectedNode) : bool :=
  match n with ModifiedNode _ => true | _ => false end.
Definition isDeletedNode (n : AffectedNode) : bool :=
  match n with DeletedNode _ => true | _ => false end.

Record TransactionMetadata : Type := mkMeta {
  AffectedNodes : list AffectedNode
}.
End xrpl.

(** [tx.meta] is optional; [tx.ledger_index!] is read under a non-null
    assertion, so it is a number here. *)
Module TransactionStream.
Record t : Type := mk {
  meta : option xrpl.TransactionMetadata;
  ledger_index : Z
}.
End TransactionStream.

Module LedgerStream.
Record t : Type := mk { ledger_index : Z }.
End LedgerStream.

(** ** [uniqNodes] (lines 32-36) *)

Definition uniqNodes (nodes : list Node) : list Node :=
  JSMap.values (JSMap.new_Map (map (fun node => (index node, node)) nodes)).

(** ** [transactionHandler] (lines 55-98)

    [AffectedNodes.filter(isCreatedNode) as CreatedNode[]]: the filter
    keeps the nodes that own the key, the cast gives them the type whose
    key can be read.  [createdNodes] is that list at the type of what is
    under the key; [createdNodes_filter] below ties it to the filter. *)

Definition createdNodes (affected : list xrpl.AffectedNode) : list xrpl.Fields :=
  flat_map (fun value => match value with xrpl.CreatedNode f => [f] | _ => [] end)
           affected.
Definition modifiedNodes (affected : list xrpl.AffectedNode) : list xrpl.Fields :=
  flat_map (fun value => match value with xrpl.ModifiedNode f => [f] | _ => [] end)
           affected.
Definition deletedNodess (affected : list xrpl.AffectedNode) : list xrpl.Fields :=
  flat_map (fun value => match value with xrpl.DeletedNode f => [f] | _ => [] end)
           affected.

(** The object built inside each [map] callback of lines 77-92. *)
Definition toNode (f : xrpl.Fields) : Node :=
  mkNode (xrpl.LedgerEntryType f) (xrpl.LedgerIndex f).

(** [a.push(...items)] on the array held in a field.  Each array of
    [lastNodes] is reachable through its field only (it comes from a
    literal [[]] or from [Array.from]), so the push in place is a new
    value of the field. *)
Definition push (items : list Node) (a : list Node) : list Node := a ++ items.

(** The handler as a transformer of the contents of the object
    [lastNodes]; the statements follow the source one by one. *)
Definition transactionHandler (tx : TransactionStream.t) (lastNodes : Nodes) : Nodes :=
  match TransactionStream.meta tx with
  | None => lastNodes
  | Some meta =>
      let modifiedNodes := modifiedNodes (xrpl.AffectedNodes meta) in
      let deletedNodess := deletedNodess (xrpl.AffectedNodes meta) in
      let createdNodes := createdNodes (xrpl.AffectedNodes meta) in
      let currentIndex := TransactionStream.ledger_index tx in
      let newNode := ledgerIndex lastNodes <? currentIndex in
      let lastNodes := set_ledgerIndex currentIndex lastNodes in
      let lastNodes :=
        if newNode
        then set_deleted [] (set_modified [] (set_created [] lastNodes))
        else lastNodes in
      let lastNodes :=
        set_created (push (map toNode createdNodes) (created lastNodes)) lastNodes in
      let lastNodes :=
        set_modified (push (map toNode modifiedNodes) (modified lastNodes)) lastNodes in
      let lastNodes :=
        set_deleted (push (map toNode deletedNodess) (deleted lastNodes)) lastNodes in
      let lastNodes := set_created (uniqNodes (created lastNodes)) lastNodes in
      let lastNodes := set_modified (uniqNodes (modified lastNodes)) lastNodes in
      let lastNodes := set_deleted (uniqNodes (deleted lastNodes)) lastNodes in
      lastNodes
  end.

(** ** The component's store

    Two objects of type [Nodes] exist: the initial value of the state
    [nodes] (line 46) and [lastNodes] (lines 49-54), which the effect's
    closure captures.  The state [nodes] holds a reference. *)

Abbreviation loc := nat.

Record AppState : Type := mkApp {
  heap : gmap nat Nodes;
  ref_lastNodes : loc;
  state_nodes : loc;
  state_ledgerIndex : option Z
}.

(** First render and effect: [useState<number>()] is undefined, the
    state [nodes] refers to a fresh object, [lastNodes] to another. *)
Definition mount : AppState :=
  mkApp (<[1%nat := initialNodes]> (<[0%nat := initialNodes]> ∅)) 1%nat 0%nat None.

(** Lines 99-103 ([console.log] writes nothing the program reads). *)
Definition ledgerClosedHandler (ledger : LedgerStream.t) (s : AppState) : AppState :=
  mkApp (heap s) (ref_lastNodes s) (ref_lastNodes s)
        (Some (LedgerStream.ledger_index ledger - 1)).

(** The two subscriptions of lines 106-107. *)
Inductive Event : Type :=
| transaction (tx : TransactionStream.t)
| ledgerClosed (ledger : LedgerStream.t).

Definition dispatch (s : AppState) (e : Event) : AppState :=
  match e with
  | transaction tx =>
      mkApp (alter (transactionHandler tx) (ref_lastNodes s) (heap s))
            (ref_lastNodes s) (state_nodes s) (state_ledgerIndex s)
  | ledgerClosed ledger => ledgerClosedHandler ledger s
  end.

Definition run (s : AppState) (events : list Event) : AppState :=
  foldl dispatch s events.

(** What a reader of the state [nodes] sees, and what the closure sees. *)
Definition published (s : AppState) : option Nodes := heap s !! state_nodes s.
Definition accumulator (s : AppState) : option Nodes := heap s !! ref_lastNodes s.

(** ** [nodesByLedgerEntryType] (lines 132-138) *)

Module ByType.
Record t : Type := mk {
  created : list Node;
  modified : list Node;
  deleted : list Node
}.
End ByType.

Definition nodesByLedgerEntryType (nodes : Nodes) (entry : string) : ByType.t :=
  ByType.mk
    (List.filter (fun node => String.eqb (LedgerEntryType node) entry) (created nodes))
    (List.filter (fun node => String.eqb (LedgerEntryType node) entry) (modified nodes))
    (List.filter (fun node => String.eqb (LedgerEntryType node) entry) (deleted nodes)).



(** ** The specification's wording of the deduplication step

    "Unique by last occurrence, preserving encounter order of first
    occurrence of each surviving key but value taken from the most recent
    occurrence."  These follow the sentence, not the code; the code's
    [uniqNodes] is compared with them below. *)

Fixpoint first_occurrences {K : Type} `{EqDecision K} (ks : list K) : list K :=
  match ks with
  | [] => []
  | k :: ks' => k :: filter (fun k' => k' ≠ k) (first_occurrences ks')
  end.

Definition last_occurrence (identity : string) (nodes : list Node) : option Node :=
  last (filter (fun node => index node = identity) nodes).

Definition dedup_by_identity (nodes : list Node) : list Node :=
  omap (fun identity => last_occurrence identity nodes)
       (first_occurrences (index <$> nodes)).

(** The identities of a collection, and the invariant of the data model. *)
Definition identities (nodes : list Node) : list string := index <$> nodes.

Definition unique_identities (o : Nodes) : Prop :=
  NoDup (identities (created o)) ∧
  NoDup (identities (modified o)) ∧
  NoDup (identities (deleted o)).

(** Folding a sequence of transaction events into the accumulator. *)
Definition fold_transactions (o : Nodes) (txs : list TransactionStream.t) : Nodes :=
  foldl (fun o tx => transactionHandler tx o) o txs.

(** The entry-type names present in a snapshot, each once. *)
Definition entryTypes (o : Nodes) : list string :=
  remove_dups (LedgerEntryType <$> (created o ++ modified o ++ deleted o)).

(** The effect records the handler derives from a transaction (the
    arguments of the three [push] calls); none without metadata. *)
Definition effects_created (tx : TransactionStream.t) : list Node :=
  match TransactionStream.meta tx with
  | None => []
  | Some meta => map toNode (createdNodes (xrpl.AffectedNodes meta))
  end.
Definition effects_modified (tx : TransactionStream.t) : list Node :=
  match TransactionStream.meta tx with
  | None => []
  | Some meta => map toNode (modifiedNodes (xrpl.AffectedNodes meta))
  end.
Definition effects_deleted (tx : TransactionStream.t) : list Node :=
  match TransactionStream.meta tx with
  | None => []
  | Some meta => map toNode (deletedNodess (xrpl.AffectedNodes meta))
  end.

(** The accumulator before and after each transaction of a sequence. *)
Fixpoint snapshots (o : Nodes) (txs : list TransactionStream.t) : list Nodes :=
  match txs with
  | [] => [o]
  | tx :: txs' => o :: snapshots (transactionHandler tx o) txs'
  end.

(** A sequence of indexes that only increases or stays equal. *)
Fixpoint ascending (l : list Z) : Prop :=
  match l with
  | a :: (b :: _) as l' => a <= b ∧ ascending l'
  | _ => True
  end.

(** A transaction event with metadata, and a few records for examples. *)
Definition txOf (i : Z) (affected : list xrpl.AffectedNode) : TransactionStream.t :=
  TransactionStream.mk (Some (xrpl.mkMeta affected)) i.

Definition txNoMeta (i : Z) : TransactionStream.t := TransactionStream.mk None i.

Definition accountA : xrpl.Fields := xrpl.mkFields "AccountRoot" "A".
Definition accountB : xrpl.Fields := xrpl.mkFields "AccountRoot" "B".
Definition offerX : xrpl.Fields := xrpl.mkFields "Offer" "X".

(** ** The catalogue of entry types (lines 14-28 and 112-124) *)

Definition ignoredLedgerEntries : list string :=
  ["Invalid"; "Any"; "Child"; "Nickname"; "Contract"; "GeneratorMap"].

Definition nonEnabledLedgerEntries : list string :=
  ["Bridge"; "XChainOwnedClaimID"; "XChainOwnedCreateAccountClaimID"; "DID"].

(** [Array.prototype.includes] on strings. *)
Definition includes (l : list string) (x : string) : bool :=
  existsb (String.eqb x) l.

(** The result of the [server_definitions] request, as far as it is
    read: the object [LEDGER_ENTRY_TYPES] (a name-to-code record, its
    own keys in the order [Object.keys] lists them), which may be
    missing. *)
Module ServerDefinitions.
Record t : Type := mk {
  LEDGER_ENTRY_TYPES : option (list (string * Z))
}.
End ServerDefinitions.

Definition Object_keys (o : list (string * Z)) : list string := map fst o.

(** The callback of lines 116-124; its result is what
    [setLedgerEntries] receives.  [x || {}] is the empty object when
    [x] is missing. *)
Definition serverDefinitionsHandler (response : ServerDefinitions.t) : list string :=
  let ledgerEntries :=
    Object_keys (default [] (ServerDefinitions.LEDGER_ENTRY_TYPES response)) in
  let ledgerEntries :=
    List.filter (fun entry => negb (includes ignoredLedgerEntries entry)) ledgerEntries in
  ledgerEntries.

(** ** What the component renders (lines 140-267)

    A [Box] element with the props it is given and its React key; the
    constant styling and the animation (delay [index * 0.015]) are left
    out.  A panel is one entry-type card with its three lists of boxes,
    the view is the heading, the three rows and the panels. *)

Module Box.
Record t : Type := mk {
  key : string;
  index : nat;
  color : string
}.
End Box.

Module Panel.
Record t : Type := mk {
  key : string;
  title : string;
  created : list Box.t;
  modified : list Box.t;
  deleted : list Box.t
}.
End Panel.

Module View.
Record t : Type := mk {
  heading : option Z;
  created : list Box.t;
  modified : list Box.t;
  deleted : list Box.t;
  panels : list Panel.t
}.
End View.

(** Lines 218-263, the card of one entry type. *)
Definition renderPanel (nodes : Nodes) (entry : string) : Panel.t :=
  Panel.mk entry entry
    (imap (fun i node => Box.mk (index node) i "blue")
          (ByType.created (nodesByLedgerEntryType nodes entry)))
    (imap (fun i node =>
             Box.mk (index node)
                    (length (ByType.created (nodesByLedgerEntryType nodes entry)) + i)%nat
                    "green")
          (ByType.modified (nodesByLedgerEntryType nodes entry)))
    (imap (fun i node =>
             Box.mk (index node)
                    (length (ByType.created (nodesByLedgerEntryType nodes entry)) +
                     length (ByType.modified (nodesByLedgerEntryType nodes entry)) + i)%nat
                    "red")
          (ByType.deleted (nodesByLedgerEntryType nodes entry))).

(** Lines 161-267, from the three pieces of state. *)
Definition render (ledgerIndex : option Z) (ledgerEntries : list string)
    (nodes : Nodes) : View.t :=
  View.mk ledgerIndex
    (imap (fun i c => Box.mk (index c) i "blue") (created nodes))
    (imap (fun i c => Box.mk (index c) i "green") (modified nodes))
    (imap (fun i c => Box.mk (index c) i "red") (deleted nodes))
    (map (renderPanel nodes)
         (List.filter (fun entry => negb (includes nonEnabledLedgerEntries entry))
                      ledgerEntries)).

(** The render of a store: the state [nodes] is read through its
    reference. *)
Definition renderApp (ledgerEntries : list string) (s : AppState) : option View.t :=
  render (state_ledgerIndex s) ledgerEntries <$> published s.

(** The boxes of a panel in the order they are displayed. *)
Definition panelBoxes (p : Panel.t) : list Box.t :=
  Panel.created p ++ Panel.modified p ++ Panel.deleted p.

(** ** Sequences of events, split by kind *)

Definition transactions_of (events : list Event) : list TransactionStream.t :=
  flat_map (fun e => match e with transaction tx => [tx] | ledgerClosed _ => [] end)
           events.

Definition closed_of (events : list Event) : list LedgerStream.t :=
  flat_map (fun e => match e with transaction _ => [] | ledgerClosed l => [l] end)
           events.

(** * Facts about the [Map] model *)

Section js_map_facts.
Context {K V : Type} `{EqDecision K}.
Implicit Types (k : K) (v : V) (m : list (K * V)).

Lemma keys_set k v m :
  JSMap.keys (JSMap.set k v m) =
  if decide (k ∈ JSMap.keys m) then JSMap.keys m else JSMap.keys m ++ [k].
Proof.
  unfold JSMap.keys. induction m as [|[k' v'] m IH].
  - destruct (decide (k ∈ ([] : list (K * V)).*1)) as [Hin|_]; [|done].
    by apply elem_of_nil in Hin.
  - cbn [JSMap.set]. rewrite fmap_cons. cbn [fst].
    destruct (decide (k' = k)) as [->|Hne].
    + rewrite fmap_cons. cbn [fst].
      destruct (decide (k ∈ k :: m.*1)) as [_|Hout]; [done |].
      destruct Hout. left.
    + rewrite fmap_cons, IH. cbn [fst].
      destruct (decide (k ∈ m.*1)) as [Hin|Hout];
        destruct (decide (k ∈ k' :: m.*1)) as [Hin'|Hout']; try done.
      * destruct Hout'. by right.
      * apply elem_of_cons in Hin' as [?|?]; congruence.
Qed.

Lemma get_set k k' v m :
  JSMap.get k' (JSMap.set k v m) =
  if decide (k = k') then Some v else JSMap.get k' m.
Proof.
  induction m as [|[k0 v0] m IH]; simpl.
  - done.
  - destruct (decide (k0 = k)) as [->|Hne]; simpl.
    + destruct (decide (k = k')); done.
    + rewrite IH. destruct (decide (k0 = k')) as [->|?].
      * rewrite decide_False; [done | congruence].
      * done.
Qed.

Lemma get_None k m : JSMap.get k m = None ↔ k ∉ JSMap.keys m.
Proof.
  unfold JSMap.keys. induction m as [|[k0 v0] m IH].
  - split; [intros _; apply not_elem_of_nil | done].
  - rewrite fmap_cons, not_elem_of_cons. cbn [fst JSMap.get].
    destruct (decide (k0 = k)) as [->|Hne].
    + split; [done | intros [Hk _]; done].
    + rewrite IH. split; [intros Hk; split; [congruence | done] | intros [_ Hk]; done].
Qed.

Lemma get_Some k v m :
  NoDup (JSMap.keys m) → JSMap.get k m = Some v ↔ (k, v) ∈ m.
Proof.
  unfold JSMap.keys. induction m as [|[k0 v0] m IH]; simpl; intros Hnd.
  - split; [done | intros []%elem_of_nil].
  - apply NoDup_cons in Hnd as [Hk0 Hnd]. rewrite elem_of_cons.
    destruct (decide (k0 = k)) as [->|Hne].
    + split.
      * intros [= ->]. by left.
      * intros [[= ->]|Hin]; [done |].
        destruct Hk0. apply list_elem_of_fmap. by exists (k, v).
    + rewrite (IH Hnd). split; [by right |].
      intros [[= -> ->]|?]; done.
Qed.

Lemma set_fresh k v m : k ∉ JSMap.keys m → JSMap.set k v m = m ++ [(k, v)].
Proof.
  unfold JSMap.keys. induction m as [|[k0 v0] m IH]; simpl; intros Hk.
  - done.
  - apply not_elem_of_cons in Hk as [Hne Hk].
    rewrite decide_False; [|done]. by rewrite IH.
Qed.

Lemma NoDup_keys_set k v m :
  NoDup (JSMap.keys m) → NoDup (JSMap.keys (JSMap.set k v m)).
Proof.
  intros Hnd. rewrite keys_set. case_decide; [done |].
  apply NoDup_app. split_and!; [done | | apply NoDup_singleton].
  intros x Hx ->%list_elem_of_singleton. done.
Qed.

Lemma map_ext m1 m2 :
  NoDup (JSMap.keys m1) →
  JSMap.keys m1 = JSMap.keys m2 →
  (∀ k, JSMap.get k m1 = JSMap.get k m2) →
  m1 = m2.
Proof.
  revert m2.
  induction m1 as [|[k1 v1] m1 IH]; intros [|[k2 v2] m2]; try done.
  unfold JSMap.keys. rewrite !fmap_cons. cbn [fst JSMap.get].
  intros [Hk1 Hnd]%NoDup_cons [= <- Hkeys] Hget.
  pose proof (Hget k1) as Hv. rewrite !decide_True in Hv by done.
  injection Hv as <-. f_equal. apply IH; [done | done |].
  intros k. specialize (Hget k).
  destruct (decide (k1 = k)) as [<-|?]; [|done].
  assert (JSMap.get k1 m1 = None) as -> by by apply get_None.
  symmetry. apply get_None. unfold JSMap.keys. by rewrite <- Hkeys.
Qed.

End js_map_facts.

(** * Facts about first occurrences *)

Section first_occurrences_facts.
Context {K : Type} `{EqDecision K}.
Implicit Types (k : K) (ks : list K).

Lemma elem_of_first_occurrences k ks : k ∈ first_occurrences ks ↔ k ∈ ks.
Proof.
  revert k. induction ks as [|k0 ks IH]; intros k; cbn [first_occurrences].
  - done.
  - rewrite !elem_of_cons, list_elem_of_filter, IH.
    destruct (decide (k = k0)) as [->|Hne]; [by split; [left|left] |].
    split; [intros [?|[_ ?]]; [done | by right] | intros [?|?]; [done | by right]].
Qed.

Lemma NoDup_first_occurrences ks : NoDup (first_occurrences ks).
Proof.
  induction ks as [|k0 ks IH]; cbn [first_occurrences].
  - apply NoDup_nil_2.
  - apply NoDup_cons. split; [|by apply NoDup_filter].
    rewrite list_elem_of_filter. intros [Hne _]. by apply Hne.
Qed.

Lemma filter_ne_fresh k ks : k ∉ ks → filter (fun k' => k' ≠ k) ks = ks.
Proof.
  induction ks as [|k0 ks IH]; [done |].
  intros [Hne Hk]%not_elem_of_cons.
  rewrite filter_cons_True by congruence. by rewrite IH.
Qed.

Lemma first_occurrences_NoDup ks : NoDup ks → first_occurrences ks = ks.
Proof.
  induction ks as [|k0 ks IH]; [done |].
  intros [Hk0 Hnd]%NoDup_cons. cbn [first_occurrences].
  rewrite (IH Hnd). by rewrite filter_ne_fresh.
Qed.

Lemma first_occurrences_snoc ks k :
  first_occurrences (ks ++ [k]) =
  if decide (k ∈ ks) then first_occurrences ks else first_occurrences ks ++ [k].
Proof.
  induction ks as [|k0 ks IH].
  - cbn. destruct (decide (k ∈ [])) as [Hin|_]; [by apply elem_of_nil in Hin | done].
  - cbn [app first_occurrences]. rewrite IH.
    destruct (decide (k ∈ ks)) as [Hin|Hout];
      destruct (decide (k ∈ k0 :: ks)) as [Hin'|Hout']; try done.
    + destruct Hout'. by right.
    + apply elem_of_cons in Hin' as [->|?]; [|done].
      rewrite filter_app, filter_cons_False, filter_nil by (intros Hne; by apply Hne).
      by rewrite app_nil_r.
    + apply not_elem_of_cons in Hout' as [Hne _].
      by rewrite filter_app, filter_cons_True, filter_nil.
Qed.

Lemma first_occurrences_app_absorb ks1 ks2 :
  (∀ k, k ∈ ks2 → k ∈ ks1) →
  first_occurrences (ks1 ++ ks2) = first_occurrences ks1.
Proof.
  induction ks2 as [|k ks2 IH] using rev_ind; intros Hsub.
  - by rewrite app_nil_r.
  - rewrite app_assoc, first_occurrences_snoc.
    rewrite decide_True.
    + apply IH. intros k' Hk'. apply Hsub, elem_of_app. by left.
    + apply elem_of_app. left. apply Hsub, elem_of_app. right. left.
Qed.

End first_occurrences_facts.

(** * [new Map(entries)] *)

Section new_Map_facts.
Context {K V : Type} `{EqDecision K}.
Implicit Types (k : K) (v : V) (m es : list (K * V)).

Lemma new_Map_snoc es k v :
  JSMap.new_Map (es ++ [(k, v)]) = JSMap.set k v (JSMap.new_Map es).
Proof. unfold JSMap.new_Map. by rewrite foldl_snoc. Qed.

Lemma keys_new_Map es :
  JSMap.keys (JSMap.new_Map es) = first_occurrences es.*1.
Proof.
  induction es as [|[k v] es IH] using rev_ind; [done |].
  rewrite new_Map_snoc, keys_set, IH, fmap_app.
  change ([(k, v)].*1) with [k]. rewrite first_occurrences_snoc.
  destruct (decide (k ∈ first_occurrences es.*1)) as [Hin|Hout];
    destruct (decide (k ∈ es.*1)) as [Hin'|Hout']; try done.
  - destruct Hout'. by apply elem_of_first_occurrences.
  - destruct Hout. by apply elem_of_first_occurrences.
Qed.

Lemma NoDup_keys_new_Map es : NoDup (JSMap.keys (JSMap.new_Map es)).
Proof. rewrite keys_new_Map. apply NoDup_first_occurrences. Qed.

Lemma get_new_Map k es :
  JSMap.get k (JSMap.new_Map es) = snd <$> last (filter (fun e => e.1 = k) es).
Proof.
  induction es as [|[k0 v0] es IH] using rev_ind; [done |].
  rewrite new_Map_snoc, get_set, filter_app, IH.
  destruct (decide (k0 = k)) as [->|Hne].
  - rewrite filter_cons_True, filter_nil by done. by rewrite last_snoc.
  - rewrite filter_cons_False, filter_nil by done. by rewrite app_nil_r.
Qed.

Lemma new_Map_id m : NoDup (JSMap.keys m) → JSMap.new_Map m = m.
Proof.
  induction m as [|[k v] m IH] using rev_ind; [done |].
  unfold JSMap.keys. rewrite fmap_app.
  intros (Hnd & Hk & _)%NoDup_app.
  rewrite new_Map_snoc, IH by done. apply set_fresh.
  intros Hin. apply (Hk k Hin). left.
Qed.

Lemma values_omap_get m :
  NoDup (JSMap.keys m) →
  JSMap.values m = omap (fun k => JSMap.get k m) (JSMap.keys m).
Proof.
  unfold JSMap.keys, JSMap.values.
  induction m as [|[k v] m IH]; [done |].
  rewrite !fmap_cons. cbn [fst snd]. intros [Hk Hnd]%NoDup_cons.
  cbn [omap list_omap JSMap.get]. rewrite decide_True by done.
  f_equal. rewrite (IH Hnd). apply list_omap_ext.
  apply Forall2_same_length_lookup. split; [done |].
  intros i k1 k2 Hk1 Hk2. rewrite Hk1 in Hk2. injection Hk2 as <-.
  rewrite decide_False; [done |].
  intros ->. apply Hk. by eapply list_elem_of_lookup_2.
Qed.

End new_Map_facts.

(** * [uniqNodes] through its [Map] *)

(** [uniqNodes] with the entries it hands to [new Map] written with [<$>]. *)
Lemma uniqNodes_unfold (nodes : list Node) :
  uniqNodes nodes =
  JSMap.values (JSMap.new_Map ((fun node => (index node, node)) <$> nodes)).
Proof. reflexivity. Qed.

Lemma entries_keys (nodes : list Node) :
  ((fun node => (index node, node)) <$> nodes).*1 = index <$> nodes.
Proof. rewrite <- list_fmap_compose. reflexivity. Qed.

Lemma get_new_Map_entries (k : string) (nodes : list Node) :
  JSMap.get k (JSMap.new_Map ((fun node => (index node, node)) <$> nodes)) =
  last_occurrence k nodes.
Proof.
  unfold last_occurrence.
  induction nodes as [|n nodes IH] using rev_ind; [done |].
  rewrite fmap_app. change ((fun node => (index node, node)) <$> [n]) with [(index n, n)].
  rewrite new_Map_snoc, get_set, IH, filter_app.
  destruct (decide (index n = k)) as [Hk|Hk].
  - rewrite filter_cons_True, filter_nil by done. by rewrite last_snoc.
  - rewrite filter_cons_False, filter_nil by done. by rewrite app_nil_r.
Qed.

(** Every entry of the [Map] is keyed by the [index] of its value. *)
Lemma new_Map_entries_keyed (nodes : list Node) (k : string) (n : Node) :
  (k, n) ∈ JSMap.new_Map ((fun node => (index node, node)) <$> nodes) →
  k = index n.
Proof.
  intros Hin. apply get_Some in Hin; [|apply NoDup_keys_new_Map].
  rewrite get_new_Map_entries in Hin. unfold last_occurrence in Hin.
  apply last_Some_elem_of, list_elem_of_filter in Hin as [Hk _]. done.
Qed.

Lemma entries_values_keyed (m : list (string * Node)) :
  (∀ k n, (k, n) ∈ m → k = index n) →
  (fun node => (index node, node)) <$> JSMap.values m = m.
Proof.
  unfold JSMap.values. induction m as [|[k n] m IH]; [done |].
  intros Hkeyed. rewrite !fmap_cons. cbn [snd]. f_equal.
  - f_equal. symmetry. apply Hkeyed. left.
  - apply IH. intros k' n' Hin. apply Hkeyed. by right.
Qed.

Lemma entries_uniqNodes (nodes : list Node) :
  (fun node => (index node, node)) <$> uniqNodes nodes =
  JSMap.new_Map ((fun node => (index node, node)) <$> nodes).
Proof.
  rewrite uniqNodes_unfold.
  apply entries_values_keyed. apply new_Map_entries_keyed.
Qed.

Lemma uniqNodes_identities (nodes : list Node) :
  identities (uniqNodes nodes) = first_occurrences (identities nodes).
Proof.
  unfold identities.
  rewrite <- (entries_keys (uniqNodes nodes)), entries_uniqNodes.
  rewrite <- (entries_keys nodes). apply keys_new_Map.
Qed.

Lemma NoDup_uniqNodes (nodes : list Node) : NoDup (identities (uniqNodes nodes)).
Proof. rewrite uniqNodes_identities. apply NoDup_first_occurrences. Qed.

Lemma elem_of_uniqNodes (nodes : list Node) (n : Node) :
  n ∈ uniqNodes nodes ↔ last_occurrence (index n) nodes = Some n.
Proof.
  rewrite <- get_new_Map_entries, get_Some by apply NoDup_keys_new_Map.
  rewrite <- entries_uniqNodes, list_elem_of_fmap. split.
  - intros Hin. by exists n.
  - intros (n' & [= _ ->] & Hin). done.
Qed.

Lemma uniqNodes_dedup (nodes : list Node) :
  uniqNodes nodes = dedup_by_identity nodes.
Proof.
  rewrite uniqNodes_unfold. unfold dedup_by_identity.
  rewrite values_omap_get by apply NoDup_keys_new_Map.
  rewrite keys_new_Map, entries_keys.
  apply list_omap_ext, Forall2_same_length_lookup. split; [done |].
  intros i k1 k2 Hk1 Hk2. rewrite Hk1 in Hk2. injection Hk2 as <-.
  apply get_new_Map_entries.
Qed.

Lemma last_occurrence_app (k : string) (l1 l2 : list Node) :
  last_occurrence k (l1 ++ l2) =
  match last_occurrence k l2 with
  | Some n => Some n
  | None => last_occurrence k l1
  end.
Proof. unfold last_occurrence. by rewrite filter_app, last_app. Qed.

Lemma last_occurrence_None (k : string) (nodes : list Node) :
  last_occurrence k nodes = None ↔ k ∉ identities nodes.
Proof.
  rewrite <- get_new_Map_entries, get_None, keys_new_Map, entries_keys.
  unfold identities. by rewrite elem_of_first_occurrences.
Qed.

Lemma last_occurrence_Some (k : string) (nodes : list Node) (n : Node) :
  last_occurrence k nodes = Some n → index n = k ∧ n ∈ nodes.
Proof.
  unfold last_occurrence. intros Hl.
  by apply last_Some_elem_of, list_elem_of_filter in Hl.
Qed.

(** Deduplicating an already deduplicated prefix again changes nothing. *)
Lemma uniqNodes_app_l (l1 l2 : list Node) :
  uniqNodes (uniqNodes l1 ++ l2) = uniqNodes (l1 ++ l2).
Proof.
  rewrite (uniqNodes_unfold (_ ++ _)), (uniqNodes_unfold (l1 ++ l2)).
  rewrite !fmap_app, entries_uniqNodes.
  unfold JSMap.new_Map at 1 3. rewrite !foldl_app. do 2 f_equal.
  apply new_Map_id, NoDup_keys_new_Map.
Qed.

Lemma uniqNodes_idemp (nodes : list Node) : uniqNodes (uniqNodes nodes) = uniqNodes nodes.
Proof.
  transitivity (uniqNodes (uniqNodes nodes ++ [])); [by rewrite app_nil_r |].
  rewrite uniqNodes_app_l. by rewrite app_nil_r.
Qed.

(** Appending the same records a second time is absorbed. *)
Lemma uniqNodes_app_twice (l1 l2 : list Node) :
  uniqNodes ((l1 ++ l2) ++ l2) = uniqNodes (l1 ++ l2).
Proof.
  rewrite !uniqNodes_unfold. f_equal.
  apply map_ext; [apply NoDup_keys_new_Map | |].
  - rewrite !keys_new_Map, !entries_keys, (fmap_app _ (l1 ++ l2)).
    apply first_occurrences_app_absorb.
    intros k Hk. rewrite fmap_app. apply elem_of_app. by right.
  - intros k. rewrite !get_new_Map_entries, (last_occurrence_app k (l1 ++ l2)).
    rewrite last_occurrence_app. by destruct (last_occurrence k l2).
Qed.

(** * The handler, equation by equation *)

Lemma createdNodes_filter (affected : list xrpl.AffectedNode) :
  map xrpl.CreatedNode (createdNodes affected) = List.filter xrpl.isCreatedNode affected.
Proof.
  induction affected as [|[f|f|f] affected IH]; cbn; [done | by f_equal | done | done].
Qed.

Lemma modifiedNodes_filter (affected : list xrpl.AffectedNode) :
  map xrpl.ModifiedNode (modifiedNodes affected) = List.filter xrpl.isModifiedNode affected.
Proof.
  induction affected as [|[f|f|f] affected IH]; cbn; [done | done | by f_equal | done].
Qed.

Lemma deletedNodess_filter (affected : list xrpl.AffectedNode) :
  map xrpl.DeletedNode (deletedNodess affected) = List.filter xrpl.isDeletedNode affected.
Proof.
  induction affected as [|[f|f|f] affected IH]; cbn; [done | done | done | by f_equal].
Qed.

(** The collections a transaction with metadata starts from: emptied
    when its index is above the stored one, kept otherwise. *)
Lemma transactionHandler_meta (tx : TransactionStream.t) (o : Nodes)
    (meta : xrpl.TransactionMetadata) :
  TransactionStream.meta tx = Some meta →
  transactionHandler tx o =
  mkNodes (TransactionStream.ledger_index tx)
    (uniqNodes ((if ledgerIndex o <? TransactionStream.ledger_index tx
                 then [] else created o) ++ effects_created tx))
    (uniqNodes ((if ledgerIndex o <? TransactionStream.ledger_index tx
                 then [] else modified o) ++ effects_modified tx))
    (uniqNodes ((if ledgerIndex o <? TransactionStream.ledger_index tx
                 then [] else deleted o) ++ effects_deleted tx)).
Proof.
  intros Hmeta.
  unfold transactionHandler, effects_created, effects_modified, effects_deleted.
  rewrite Hmeta. by destruct (ledgerIndex o <? TransactionStream.ledger_index tx).
Qed.

Lemma transactionHandler_no_meta (tx : TransactionStream.t) (o : Nodes) :
  TransactionStream.meta tx = None → transactionHandler tx o = o.
Proof. intros Hmeta. unfold transactionHandler. by rewrite Hmeta. Qed.

Lemma transactionHandler_ledgerIndex (tx : TransactionStream.t) (o : Nodes) :
  ledgerIndex (transactionHandler tx o) =
  match TransactionStream.meta tx with
  | Some _ => TransactionStream.ledger_index tx
  | None => ledgerIndex o
  end.
Proof.
  destruct (TransactionStream.meta tx) as [meta|] eqn:Hmeta.
  - by rewrite (transactionHandler_meta tx o meta Hmeta).
  - by rewrite transactionHandler_no_meta.
Qed.

Lemma elem_of_identities_uniqNodes (k : string) (nodes : list Node) :
  k ∈ identities (uniqNodes nodes) ↔ k ∈ identities nodes.
Proof. rewrite uniqNodes_identities. apply elem_of_first_occurrences. Qed.

Lemma ascending_lower_head (a a' : Z) (l : list Z) :
  a' <= a → ascending (a :: l) → ascending (a' :: l).
Proof. destruct l as [|b l]; cbn; [done |]. intros Ha [Hab Hl]. split; [lia | done]. Qed.

Lemma transactionHandler_unique (tx : TransactionStream.t) (o : Nodes) :
  unique_identities o → unique_identities (transactionHandler tx o).
Proof.
  intros Ho. destruct (TransactionStream.meta tx) as [meta|] eqn:Hmeta.
  - rewrite (transactionHandler_meta tx o meta Hmeta).
    repeat split; apply NoDup_uniqNodes.
  - by rewrite transactionHandler_no_meta.
Qed.

(** * The ledger index of the snapshot *)

(** C1, as stated, fails.  From the initial accumulator a transaction
    of ledger 6 and then a transaction (with metadata) of ledger 5: the
    second one carries an index lower than the stored one, and the stored
    [ledgerIndex] goes down from 6 to 5 (line 70 assigns it whatever the
    comparison of line 69 said). *)
Lemma ledgerIndex_lowered_by_stale_transaction :
  let o := fold_transactions initialNodes [txOf 6 [xrpl.CreatedNode accountA]] in
  let tx := txOf 5 [xrpl.ModifiedNode accountB] in
  TransactionStream.ledger_index tx < ledgerIndex o ∧
  ¬ (ledgerIndex o <= ledgerIndex (transactionHandler tx o)).
Proof. vm_compute. split; [reflexivity | intros H; apply H; reflexivity]. Qed.

(** C1, amended.  After a transaction with metadata the stored
    [ledgerIndex] is the index that transaction carries; a transaction
    without metadata leaves it as it was.  Hence, over a sequence of
    transaction events whose carried indexes start at or above the stored
    index and never decrease, the [ledgerIndex] of the successive
    snapshots only increases or stays equal. *)
Theorem ledgerIndex_ascending_on_ordered_stream
    (o : Nodes) (txs : list TransactionStream.t) :
  ascending (ledgerIndex o :: map TransactionStream.ledger_index txs) →
  ascending (map ledgerIndex (snapshots o txs)) ∧
  (∀ tx o', ledgerIndex (transactionHandler tx o') =
            match TransactionStream.meta tx with
            | Some _ => TransactionStream.ledger_index tx
            | None => ledgerIndex o'
            end).
Proof.
  intros Hasc. split.
  - revert o Hasc. induction txs as [|tx txs IH]; intros o Hasc; [done |].
    destruct Hasc as [Hle Hasc].
    assert (ledgerIndex o <= ledgerIndex (transactionHandler tx o) ∧
            ledgerIndex (transactionHandler tx o) <= TransactionStream.ledger_index tx)
      as [Hup Hbelow].
    { rewrite transactionHandler_ledgerIndex.
      destruct (TransactionStream.meta tx); lia. }
    specialize (IH (transactionHandler tx o) (ascending_lower_head _ _ _ Hbelow Hasc)).
    change (ascending (ledgerIndex o :: map ledgerIndex
                         (snapshots (transactionHandler tx o) txs))).
    destruct txs; (split; [exact Hup | exact IH]).
  - intros tx o'. apply transactionHandler_ledgerIndex.
Qed.

Lemma ledgerIndex_ascending_on_ordered_stream_witness :
  ascending (map ledgerIndex
    (snapshots initialNodes
       [txOf 5 [xrpl.CreatedNode accountA]; txNoMeta 9; txOf 9 []; txOf 12 []])).
Proof.
  apply (ledgerIndex_ascending_on_ordered_stream initialNodes
           [txOf 5 [xrpl.CreatedNode accountA]; txNoMeta 9; txOf 9 []; txOf 12 []]).
  simpl. lia.
Defined.

(** * Transactions without metadata *)

(** C7.  A transaction event without metadata yields no effect records
    and changes nothing: the handler returns at line 56, the object
    [lastNodes] keeps its contents, and the whole store is as before. *)
Theorem transaction_without_meta_is_noop
    (tx : TransactionStream.t) (o : Nodes) (s : AppState) :
  TransactionStream.meta tx = None →
  effects_created tx = [] ∧ effects_modified tx = [] ∧ effects_deleted tx = [] ∧
  transactionHandler tx o = o ∧
  dispatch s (transaction tx) = s.
Proof.
  intros Hmeta. unfold effects_created, effects_modified, effects_deleted.
  rewrite Hmeta. split_and!; try done.
  - by apply transactionHandler_no_meta.
  - destruct s as [h l n i]. cbn. f_equal.
    apply map_eq. intros j. rewrite lookup_alter.
    case_decide as Hj; [|done]. subst j.
    destruct (h !! l) as [x|]; [|done]. cbn.
    by rewrite transactionHandler_no_meta.
Qed.

Lemma transaction_without_meta_is_noop_witness :
  let o := transactionHandler (txOf 10 [xrpl.CreatedNode accountA]) initialNodes in
  transactionHandler (txNoMeta 11) o = o.
Proof.
  intros o.
  apply (transaction_without_meta_is_noop (txNoMeta 11) o mount). reflexivity.
Defined.

(** * The closed ledger *)

(** C10.  A ledger-closed event that reports index L sets the state
    [ledgerIndex] (the one displayed) to L - 1. *)
Theorem ledgerClosedHandler_ledgerIndex (ledger : LedgerStream.t) (s : AppState) :
  state_ledgerIndex (ledgerClosedHandler ledger s) =
  Some (LedgerStream.ledger_index ledger - 1).
Proof. reflexivity. Qed.

(** * What a ledger-closed event publishes *)

Lemma dispatch_ref_lastNodes (s : AppState) (e : Event) :
  ref_lastNodes (dispatch s e) = ref_lastNodes s.
Proof. by destruct e. Qed.

Lemma dispatch_keeps_alias (s : AppState) (e : Event) :
  state_nodes s = ref_lastNodes s →
  state_nodes (dispatch s e) = ref_lastNodes (dispatch s e).
Proof. by destruct e. Qed.

Lemma run_keeps_alias (events : list Event) (s : AppState) :
  state_nodes s = ref_lastNodes s →
  state_nodes (run s events) = ref_lastNodes (run s events).
Proof.
  revert s. induction events as [|e events IH]; intros s Hs; [done |].
  apply (IH (dispatch s e)), dispatch_keeps_alias, Hs.
Qed.

(** C2, as stated, fails in its first half.  After a transaction of
    ledger 10 and the ledger-closed event, the state [nodes] shows the
    snapshot of ledger 10; one more transaction, of ledger 11, and the
    same state shows ledger 11 with other collections, although no
    ledger-closed event came in between: what was published is the
    object [lastNodes] itself. *)
Lemma published_snapshot_changes_with_accumulator :
  let s := run mount [transaction (txOf 10 [xrpl.CreatedNode accountA]);
                      ledgerClosed (LedgerStream.mk 11)] in
  let s' := dispatch s (transaction (txOf 11 [xrpl.DeletedNode accountB])) in
  published s = Some (mkNodes 10 [toNode accountA] [] []) ∧
  published s' = Some (mkNodes 11 [] [] [toNode accountB]) ∧
  published s' ≠ published s.
Proof. vm_compute. split_and!; [reflexivity | reflexivity | discriminate]. Qed.

(** C2, amended.  The ledger-closed handler does not reset the
    accumulator: the store, and with it the [ledgerIndex] and the three
    collections of [lastNodes], is unchanged.  What it publishes is a
    reference to the object [lastNodes], not a copy: from then on,
    whatever events follow, the published snapshot is the accumulator. *)
Theorem ledgerClosedHandler_publishes_lastNodes
    (ledger : LedgerStream.t) (s : AppState) :
  heap (ledgerClosedHandler ledger s) = heap s ∧
  ref_lastNodes (ledgerClosedHandler ledger s) = ref_lastNodes s ∧
  accumulator (ledgerClosedHandler ledger s) = accumulator s ∧
  state_nodes (ledgerClosedHandler ledger s) = ref_lastNodes s ∧
  published (ledgerClosedHandler ledger s) = accumulator s ∧
  (∀ events,
     published (run (ledgerClosedHandler ledger s) events) =
     accumulator (run (ledgerClosedHandler ledger s) events)).
Proof.
  split_and!; try reflexivity.
  intros events. unfold published, accumulator.
  by rewrite (run_keeps_alias events (ledgerClosedHandler ledger s)).
Qed.

(** * Folding a transaction twice *)

(** C3.  Handling the same transaction event twice in a row leaves the
    accumulator exactly as handling it once: the second time nothing is
    reset (the stored index already is the carried one) and the records
    appended again are absorbed by the deduplication. *)
Theorem transactionHandler_idempotent (tx : TransactionStream.t) (o : Nodes) :
  transactionHandler tx (transactionHandler tx o) = transactionHandler tx o.
Proof.
  destruct (TransactionStream.meta tx) as [meta|] eqn:Hmeta.
  - rewrite (transactionHandler_meta tx (transactionHandler tx o) meta Hmeta).
    rewrite (transactionHandler_meta tx o meta Hmeta). cbn [ledgerIndex created modified deleted].
    rewrite Z.ltb_irrefl.
    by rewrite !uniqNodes_app_l, !uniqNodes_app_twice.
  - by rewrite !transactionHandler_no_meta.
Qed.

(** Every triple of record lists is what some transaction carries. *)
Lemma effects_of_any_lists (i : Z) (c m d : list Node) :
  ∃ tx, TransactionStream.ledger_index tx = i ∧
        effects_created tx = c ∧ effects_modified tx = m ∧ effects_deleted tx = d.
Proof.
  pose (back := fun n => xrpl.mkFields (LedgerEntryType n) (index n)).
  exists (txOf i (map (fun n => xrpl.CreatedNode (back n)) c ++
                  map (fun n => xrpl.ModifiedNode (back n)) m ++
                  map (fun n => xrpl.DeletedNode (back n)) d)).
  unfold effects_created, effects_modified, effects_deleted,
    createdNodes, modifiedNodes, deletedNodess. cbn.
  assert (Hkeep : ∀ (C : xrpl.Fields → xrpl.AffectedNode) g l,
            (∀ f, g (C f) = [f]) →
            map toNode (flat_map g (map (fun n => C (back n)) l)) = l).
  { intros C g l Hg. induction l as [|[t k] l IH]; [done |].
    cbn. rewrite Hg. cbn. by rewrite IH. }
  assert (Hdrop : ∀ (C : xrpl.Fields → xrpl.AffectedNode)
                    (g : xrpl.AffectedNode → list xrpl.Fields) l,
            (∀ f, g (C f) = []) →
            flat_map g (map (fun n => C (back n)) l) = []).
  { intros C g l Hg. induction l as [|n l IH]; [done |]. cbn. by rewrite Hg. }
  rewrite !flat_map_app, !map_app.
  split_and!; [done | | |].
  - rewrite (Hkeep xrpl.CreatedNode), (Hdrop xrpl.ModifiedNode),
      (Hdrop xrpl.DeletedNode) by done.
    apply app_nil_r.
  - rewrite (Hdrop xrpl.CreatedNode), (Hkeep xrpl.ModifiedNode),
      (Hdrop xrpl.DeletedNode) by done.
    apply app_nil_r.
  - by rewrite (Hdrop xrpl.CreatedNode), (Hdrop xrpl.ModifiedNode),
      (Hkeep xrpl.DeletedNode) by done.
Qed.

(** * Reset at a ledger boundary, and only there *)

Lemma identities_app (l1 l2 : list Node) (k : string) :
  k ∈ identities (l1 ++ l2) ↔ k ∈ identities l1 ∨ k ∈ identities l2.
Proof. unfold identities. by rewrite fmap_app, elem_of_app. Qed.

(** C4, as stated, fails for a transaction without metadata.  The
    accumulator holds ledger 5 with three non-empty collections; a
    transaction of ledger 6 that has no [meta] returns at line 56: no
    collection is emptied, and what they hold afterwards is not the
    (absent) records of that transaction. *)
Lemma transaction_without_meta_resets_nothing :
  let o := fold_transactions initialNodes
             [txOf 5 [xrpl.CreatedNode accountA; xrpl.ModifiedNode accountB;
                      xrpl.DeletedNode offerX]] in
  let tx := txNoMeta 6 in
  ledgerIndex o = 5 ∧
  created o ≠ [] ∧ modified o ≠ [] ∧ deleted o ≠ [] ∧
  ledgerIndex o < TransactionStream.ledger_index tx ∧
  created (transactionHandler tx o) ≠ uniqNodes (effects_created tx) ∧
  modified (transactionHandler tx o) ≠ uniqNodes (effects_modified tx) ∧
  deleted (transactionHandler tx o) ≠ uniqNodes (effects_deleted tx).
Proof. vm_compute. split_and!; (reflexivity || discriminate). Qed.

(** C4, amended.  A transaction with metadata whose index is above the
    stored one empties the three collections before its own records are
    appended: afterwards each collection is the deduplication of that
    transaction's records alone, and the stored index is the new one.
    The next transaction with metadata and the same index empties
    nothing: its records are appended to what is there, and every
    identity that was there still is. *)
Theorem reset_at_ledger_boundary_only
    (o : Nodes) (tx tx' : TransactionStream.t) (meta meta' : xrpl.TransactionMetadata) :
  TransactionStream.meta tx = Some meta →
  TransactionStream.meta tx' = Some meta' →
  ledgerIndex o < TransactionStream.ledger_index tx →
  TransactionStream.ledger_index tx' = TransactionStream.ledger_index tx →
  let o1 := transactionHandler tx o in
  let o2 := transactionHandler tx' o1 in
  (ledgerIndex o1 = TransactionStream.ledger_index tx ∧
   created o1 = uniqNodes (effects_created tx) ∧
   modified o1 = uniqNodes (effects_modified tx) ∧
   deleted o1 = uniqNodes (effects_deleted tx)) ∧
  (ledgerIndex o2 = TransactionStream.ledger_index tx ∧
   created o2 = uniqNodes (created o1 ++ effects_created tx') ∧
   modified o2 = uniqNodes (modified o1 ++ effects_modified tx') ∧
   deleted o2 = uniqNodes (deleted o1 ++ effects_deleted tx')) ∧
  (∀ k, (k ∈ identities (created o1) → k ∈ identities (created o2)) ∧
        (k ∈ identities (modified o1) → k ∈ identities (modified o2)) ∧
        (k ∈ identities (deleted o1) → k ∈ identities (deleted o2))).
Proof.
  intros Hmeta Hmeta' Hlt Hsame o1 o2.
  assert (Ho1 : o1 = mkNodes (TransactionStream.ledger_index tx)
                       (uniqNodes (effects_created tx))
                       (uniqNodes (effects_modified tx))
                       (uniqNodes (effects_deleted tx))).
  { unfold o1. rewrite (transactionHandler_meta tx o meta Hmeta).
    apply Z.ltb_lt in Hlt. by rewrite Hlt. }
  assert (Ho2 : o2 = mkNodes (TransactionStream.ledger_index tx)
                       (uniqNodes (created o1 ++ effects_created tx'))
                       (uniqNodes (modified o1 ++ effects_modified tx'))
                       (uniqNodes (deleted o1 ++ effects_deleted tx'))).
  { unfold o2. rewrite (transactionHandler_meta tx' o1 meta' Hmeta').
    rewrite Hsame, Ho1. cbn [ledgerIndex]. by rewrite Z.ltb_irrefl. }
  split_and!; try (by rewrite Ho1); try (by rewrite Ho2).
  intros k. rewrite Ho2. cbn [created modified deleted].
  rewrite !elem_of_identities_uniqNodes, !identities_app. tauto.
Qed.

Lemma reset_at_ledger_boundary_only_witness :
  let o := mkNodes 5 [toNode offerX] [toNode offerX; toNode accountB] [toNode accountB] in
  let tx := txOf 6 [xrpl.CreatedNode accountA] in
  let tx' := txOf 6 [xrpl.ModifiedNode accountA; xrpl.CreatedNode accountB] in
  transactionHandler tx o = mkNodes 6 [toNode accountA] [] [] ∧
  transactionHandler tx' (transactionHandler tx o) =
    mkNodes 6 [toNode accountA; toNode accountB] [toNode accountA] [].
Proof.
  intros o tx tx'.
  pose proof (reset_at_ledger_boundary_only o tx tx'
                (xrpl.mkMeta [xrpl.CreatedNode accountA])
                (xrpl.mkMeta [xrpl.ModifiedNode accountA; xrpl.CreatedNode accountB])) as H.
  cbv zeta in H.
  destruct H as [_ _]; [reflexivity | reflexivity | simpl; lia | reflexivity |].
  split; reflexivity.
Defined.

(** * A transaction of an earlier ledger *)

(** C5.  A transaction whose index is below the stored one empties no
    collection: with metadata, each collection becomes the
    deduplication of what it held followed by the transaction's records
    of that kind; without metadata it stays as it is.  Either way the
    identities afterwards are those held before together with those of
    the transaction. *)
Theorem stale_transaction_is_appended (o : Nodes) (tx : TransactionStream.t) :
  TransactionStream.ledger_index tx < ledgerIndex o →
  let o' := transactionHandler tx o in
  (created o' = match TransactionStream.meta tx with
                | Some _ => uniqNodes (created o ++ effects_created tx)
                | None => created o
                end ∧
   modified o' = match TransactionStream.meta tx with
                 | Some _ => uniqNodes (modified o ++ effects_modified tx)
                 | None => modified o
                 end ∧
   deleted o' = match TransactionStream.meta tx with
                | Some _ => uniqNodes (deleted o ++ effects_deleted tx)
                | None => deleted o
                end) ∧
  (∀ k, (k ∈ identities (created o') ↔
           k ∈ identities (created o) ∨ k ∈ identities (effects_created tx)) ∧
        (k ∈ identities (modified o') ↔
           k ∈ identities (modified o) ∨ k ∈ identities (effects_modified tx)) ∧
        (k ∈ identities (deleted o') ↔
           k ∈ identities (deleted o) ∨ k ∈ identities (effects_deleted tx))).
Proof.
  intros Hlt o'. unfold o'.
  destruct (TransactionStream.meta tx) as [meta|] eqn:Hmeta.
  - rewrite (transactionHandler_meta tx o meta Hmeta).
    assert ((ledgerIndex o <? TransactionStream.ledger_index tx) = false) as ->
      by (apply Z.ltb_ge; lia).
    cbn [created modified deleted]. split; [done |].
    intros k. by rewrite !elem_of_identities_uniqNodes, !identities_app.
  - rewrite (transactionHandler_no_meta tx o Hmeta). split; [done |].
    unfold effects_created, effects_modified, effects_deleted. rewrite Hmeta.
    intros k. unfold identities at 3 5 7. cbn. rewrite elem_of_nil. tauto.
Qed.

Lemma stale_transaction_is_appended_witness :
  let o := mkNodes 8 [toNode offerX] [toNode accountA] [] in
  let tx := txOf 7 [xrpl.CreatedNode accountB; xrpl.ModifiedNode accountA] in
  created (transactionHandler tx o) = [toNode offerX; toNode accountB] ∧
  modified (transactionHandler tx o) = [toNode accountA].
Proof.
  intros o tx.
  destruct (stale_transaction_is_appended o tx) as [(Hc & Hm & _) _]; [simpl; lia |].
  split; [rewrite Hc | rewrite Hm]; reflexivity.
Defined.

(** * The three collections are deduplicated one by one *)

(** C9.  Within one ledger (the transaction's index is not above the
    stored one, so nothing is emptied), an identity that is in the
    created collection or among the created records of the transaction,
    and also in the modified collection or among the modified records
    of the transaction, is in both collections afterwards.  For an
    identity that the transaction itself carries as created and as
    modified this holds whatever the indexes are. *)
Theorem no_cross_kind_merge (o : Nodes) (tx : TransactionStream.t) (X : string) :
  let o' := transactionHandler tx o in
  (TransactionStream.ledger_index tx <= ledgerIndex o →
   X ∈ identities (created o ++ effects_created tx) →
   X ∈ identities (modified o ++ effects_modified tx) →
   X ∈ identities (created o') ∧ X ∈ identities (modified o')) ∧
  (X ∈ identities (effects_created tx) →
   X ∈ identities (effects_modified tx) →
   X ∈ identities (created o') ∧ X ∈ identities (modified o')).
Proof.
  intros o'. unfold o'.
  destruct (TransactionStream.meta tx) as [meta|] eqn:Hmeta.
  - rewrite (transactionHandler_meta tx o meta Hmeta). cbn [created modified].
    rewrite !elem_of_identities_uniqNodes. split.
    + intros Hle. assert ((ledgerIndex o <? TransactionStream.ledger_index tx) = false) as ->
        by (apply Z.ltb_ge; lia). done.
    + rewrite !identities_app. tauto.
  - rewrite (transactionHandler_no_meta tx o Hmeta).
    unfold effects_created, effects_modified. rewrite Hmeta, !app_nil_r. split.
    + done.
    + intros []%elem_of_nil.
Qed.

Lemma no_cross_kind_merge_witness :
  let o := transactionHandler (txOf 10 [xrpl.CreatedNode offerX]) initialNodes in
  let o' := transactionHandler (txOf 10 [xrpl.ModifiedNode offerX]) o in
  "X" ∈ identities (created o') ∧ "X" ∈ identities (modified o').
Proof.
  intros o o'.
  apply (proj1 (no_cross_kind_merge o (txOf 10 [xrpl.ModifiedNode offerX]) "X")).
  - unfold o. simpl. lia.
  - unfold o. apply list_elem_of_In. simpl. tauto.
  - unfold o. apply list_elem_of_In. simpl. tauto.
Defined.

(** * The deduplication step *)

Lemma initialNodes_unique : unique_identities initialNodes.
Proof. repeat split; apply NoDup_nil_2. Qed.

Lemma fold_transactions_unique (txs : list TransactionStream.t) (o : Nodes) :
  unique_identities o → unique_identities (fold_transactions o txs).
Proof.
  revert o. induction txs as [|tx txs IH]; intros o Ho; [done |].
  apply (IH (transactionHandler tx o)), transactionHandler_unique, Ho.
Qed.

Lemma accumulator_dispatch (s : AppState) (e : Event) :
  accumulator (dispatch s e) =
  match e with
  | transaction tx => transactionHandler tx <$> accumulator s
  | ledgerClosed _ => accumulator s
  end.
Proof.
  destruct e as [tx|ledger]; [|done].
  unfold accumulator. cbn. rewrite lookup_alter. by rewrite decide_True.
Qed.

Lemma run_accumulator_unique (events : list Event) (s : AppState) (o : Nodes) :
  (∀ o0, accumulator s = Some o0 → unique_identities o0) →
  accumulator (run s events) = Some o → unique_identities o.
Proof.
  revert s. induction events as [|e events IH]; intros s Hs Ho; [by apply Hs |].
  apply (IH (dispatch s e)); [|done].
  intros o1. rewrite accumulator_dispatch. destruct e as [tx|ledger]; [|apply Hs].
  destruct (accumulator s) as [o0|]; [|done].
  intros [= <-]. by apply transactionHandler_unique, Hs.
Qed.

(** C6.  [uniqNodes] is the deduplication the specification words: its
    result lists the identities of the input in the order of their
    first occurrences, each once, and the record kept for an identity is
    the last one the input has for it.  Consequently the three
    collections have unique identities after every transaction with
    metadata, whatever the accumulator was, and in every accumulator
    reached from the initial one. *)
Theorem uniqNodes_keeps_last_in_first_order (nodes : list Node) :
  uniqNodes nodes = dedup_by_identity nodes ∧
  NoDup (identities (uniqNodes nodes)) ∧
  (∀ k, k ∈ identities (uniqNodes nodes) ↔ k ∈ identities nodes) ∧
  (∀ n, n ∈ uniqNodes nodes ↔ last_occurrence (index n) nodes = Some n) ∧
  identities (uniqNodes nodes) = first_occurrences (identities nodes) ∧
  (∀ tx o, is_Some (TransactionStream.meta tx) →
           unique_identities (transactionHandler tx o)) ∧
  (∀ txs, unique_identities (fold_transactions initialNodes txs)) ∧
  (∀ events o, accumulator (run mount events) = Some o → unique_identities o).
Proof.
  split_and!.
  - apply uniqNodes_dedup.
  - apply NoDup_uniqNodes.
  - intros k. apply elem_of_identities_uniqNodes.
  - intros n. apply elem_of_uniqNodes.
  - apply uniqNodes_identities.
  - intros tx o [meta Hmeta]. rewrite (transactionHandler_meta tx o meta Hmeta).
    repeat split; apply NoDup_uniqNodes.
  - intros txs. apply fold_transactions_unique, initialNodes_unique.
  - intros events o. apply run_accumulator_unique.
    intros o0 [= <-]. apply initialNodes_unique.
Qed.

Lemma uniqNodes_keeps_last_in_first_order_witness :
  uniqNodes [mkNode "Offer" "1"; mkNode "Check" "2"; mkNode "Escrow" "1"] =
    [mkNode "Escrow" "1"; mkNode "Check" "2"] ∧
  unique_identities
    (transactionHandler (txOf 3 [xrpl.CreatedNode accountA; xrpl.CreatedNode accountA])
       (mkNodes 3 [toNode offerX; toNode offerX] [] [])).
Proof.
  split; [reflexivity |].
  apply (uniqNodes_keeps_last_in_first_order []). by eexists.
Defined.

(** * The filter by entry type *)

Lemma filter_eqb_decide {A : Type} (f : A → string) (entry : string) (l : list A) :
  List.filter (fun x => String.eqb (f x) entry) l = filter (fun x => f x = entry) l.
Proof.
  induction l as [|x l IH]; [done |].
  cbn [List.filter]. rewrite filter_cons, IH.
  destruct (String.eqb_spec (f x) entry); by case_decide.
Qed.

Lemma filter_disjoint_app {A : Type} (P Q : A → Prop)
    `{!∀ x, Decision (P x)} `{!∀ x, Decision (Q x)} (l : list A) :
  (∀ x, P x → Q x → False) →
  filter P l ++ filter Q l ≡ₚ filter (fun x => P x ∨ Q x) l.
Proof.
  intros Hdisj. induction l as [|x l IH]; [done |].
  rewrite !filter_cons.
  destruct (decide (P x)) as [HP|HP]; destruct (decide (Q x)) as [HQ|HQ].
  - destruct (Hdisj x HP HQ).
  - rewrite decide_True by (by left). cbn. by rewrite IH.
  - rewrite decide_True by (by right). rewrite <- Permutation_middle. by rewrite IH.
  - rewrite decide_False by tauto. done.
Qed.

Lemma filter_by_keys {A : Type} (f : A → string) (ks : list string) (l : list A) :
  NoDup ks →
  (ks ≫= fun k => filter (fun x => f x = k) l) ≡ₚ filter (fun x => f x ∈ ks) l.
Proof.
  induction ks as [|k ks IH]; intros Hnd.
  - cbn. symmetry. apply Permutation_nil_r.
    induction l as [|x l IHl]; [done |].
    rewrite filter_cons_False; [done | apply not_elem_of_nil].
  - apply NoDup_cons in Hnd as [Hk Hnd]. rewrite bind_cons, (IH Hnd).
    rewrite filter_disjoint_app.
    + apply reflexive_eq, list_filter_iff. intros x. by rewrite elem_of_cons.
    + intros x <- Hin. done.
Qed.

Lemma filter_all {A : Type} (P : A → Prop) `{!∀ x, Decision (P x)} (l : list A) :
  (∀ x, x ∈ l → P x) → filter P l = l.
Proof.
  induction l as [|x l IH]; intros HP; [done |].
  rewrite filter_cons_True by (apply HP; left).
  f_equal. apply IH. intros y Hy. apply HP. by right.
Qed.

Lemma filter_none {A : Type} (P : A → Prop) `{!∀ x, Decision (P x)} (l : list A) :
  (∀ x, x ∈ l → ¬ P x) → filter P l = [].
Proof.
  induction l as [|x l IH]; intros HP; [done |].
  rewrite filter_cons_False by (apply HP; left).
  apply IH. intros y Hy. apply HP. by right.
Qed.

Lemma classes_cover (ks : list string) (l : list Node) :
  NoDup ks →
  (∀ n, n ∈ l → LedgerEntryType n ∈ ks) →
  (ks ≫= fun k => List.filter (fun node => String.eqb (LedgerEntryType node) k) l) ≡ₚ l.
Proof.
  intros Hnd Hall.
  transitivity (ks ≫= fun k => filter (fun node => LedgerEntryType node = k) l).
  - apply reflexive_eq. clear Hnd Hall.
    induction ks as [|k ks IH]; [done |].
    by rewrite !bind_cons, IH, filter_eqb_decide.
  - rewrite (filter_by_keys LedgerEntryType ks l Hnd).
    apply reflexive_eq, filter_all, Hall.
Qed.

Lemma elem_of_entryTypes (o : Nodes) (n : Node) :
  n ∈ created o ++ modified o ++ deleted o → LedgerEntryType n ∈ entryTypes o.
Proof.
  intros Hn. unfold entryTypes.
  apply elem_of_remove_dups, list_elem_of_fmap. by exists n.
Qed.

(** C8.  For a snapshot and an entry-type name, each of the three lists
    returned holds exactly the records of the corresponding collection
    whose [LedgerEntryType] is that name (in the collection's order); a
    name that no record of the snapshot has gives three empty lists; and
    the lists returned for the names present in the snapshot, put
    together, are the full collection, record for record. *)
Theorem nodesByLedgerEntryType_partitions (nodes : Nodes) (entry : string) :
  (ByType.created (nodesByLedgerEntryType nodes entry) =
     filter (fun n => LedgerEntryType n = entry) (created nodes) ∧
   ByType.modified (nodesByLedgerEntryType nodes entry) =
     filter (fun n => LedgerEntryType n = entry) (modified nodes) ∧
   ByType.deleted (nodesByLedgerEntryType nodes entry) =
     filter (fun n => LedgerEntryType n = entry) (deleted nodes)) ∧
  (∀ n, (n ∈ ByType.created (nodesByLedgerEntryType nodes entry) ↔
           n ∈ created nodes ∧ LedgerEntryType n = entry) ∧
        (n ∈ ByType.modified (nodesByLedgerEntryType nodes entry) ↔
           n ∈ modified nodes ∧ LedgerEntryType n = entry) ∧
        (n ∈ ByType.deleted (nodesByLedgerEntryType nodes entry) ↔
           n ∈ deleted nodes ∧ LedgerEntryType n = entry)) ∧
  (entry ∉ entryTypes nodes →
   nodesByLedgerEntryType nodes entry = ByType.mk [] [] []) ∧
  ((entryTypes nodes ≫= fun e => ByType.created (nodesByLedgerEntryType nodes e))
     ≡ₚ created nodes ∧
   (entryTypes nodes ≫= fun e => ByType.modified (nodesByLedgerEntryType nodes e))
     ≡ₚ modified nodes ∧
   (entryTypes nodes ≫= fun e => ByType.deleted (nodesByLedgerEntryType nodes e))
     ≡ₚ deleted nodes).
Proof.
  unfold nodesByLedgerEntryType. cbn [ByType.created ByType.modified ByType.deleted].
  split_and!.
  - apply filter_eqb_decide.
  - apply filter_eqb_decide.
  - apply filter_eqb_decide.
  - intros n. rewrite !filter_eqb_decide, !list_elem_of_filter. tauto.
  - intros Hout. rewrite !filter_eqb_decide.
    f_equal; apply filter_none; intros n Hn <-; apply Hout, elem_of_entryTypes;
      rewrite !elem_of_app; tauto.
  - apply classes_cover; [apply NoDup_remove_dups |].
    intros n Hn. apply elem_of_entryTypes. rewrite !elem_of_app. tauto.
  - apply classes_cover; [apply NoDup_remove_dups |].
    intros n Hn. apply elem_of_entryTypes. rewrite !elem_of_app. tauto.
  - apply classes_cover; [apply NoDup_remove_dups |].
    intros n Hn. apply elem_of_entryTypes. rewrite !elem_of_app. tauto.
Qed.

Lemma nodesByLedgerEntryType_partitions_witness :
  let nodes := mkNodes 10 [toNode accountA; toNode offerX; toNode accountB]
                 [toNode offerX] [] in
  nodesByLedgerEntryType nodes "AccountRoot" =
    ByType.mk [toNode accountA; toNode accountB] [] [] ∧
  nodesByLedgerEntryType nodes "Escrow" = ByType.mk [] [] [].
Proof.
  intros nodes. split; [reflexivity |].
  apply (nodesByLedgerEntryType_partitions nodes "Escrow").
  vm_compute. intros H. apply list_elem_of_In in H. simpl in H.
  destruct H as [H|[H|[]]]; discriminate H.
Defined.

(** * Further facts about [uniqNodes] *)

Lemma length_first_occurrences {K : Type} `{EqDecision K} (ks : list K) :
  (length (first_occurrences ks) <= length ks)%nat.
Proof.
  induction ks as [|k ks IH]; [done |]. cbn [first_occurrences length].
  pose proof (length_filter (fun k' => k' ≠ k) (first_occurrences ks)). lia.
Qed.

Lemma filter_filter_and {A : Type} (P Q : A → Prop)
    `{!∀ x, Decision (P x)} `{!∀ x, Decision (Q x)} (l : list A) :
  filter P (filter Q l) = filter (fun x => P x ∧ Q x) l.
Proof.
  induction l as [|x l IH]; [done |].
  destruct (decide (Q x)) as [HQ|HQ]; [destruct (decide (P x)) as [HP|HP] |].
  - by rewrite (filter_cons_True Q), !filter_cons_True, IH by done.
  - rewrite (filter_cons_True Q), (filter_cons_False P) by done.
    rewrite (filter_cons_False (fun x => P x ∧ Q x)) by tauto. done.
  - rewrite (filter_cons_False Q) by done.
    rewrite (filter_cons_False (fun x => P x ∧ Q x)) by tauto. done.
Qed.

Lemma first_occurrences_app {K : Type} `{EqDecision K} (ks1 ks2 : list K) :
  first_occurrences (ks1 ++ ks2) =
  first_occurrences ks1 ++ filter (fun k => k ∉ ks1) (first_occurrences ks2).
Proof.
  induction ks1 as [|k ks1 IH].
  - symmetry. apply filter_all. intros k _. apply not_elem_of_nil.
  - change (first_occurrences ((k :: ks1) ++ ks2))
      with (k :: filter (fun k' => k' ≠ k) (first_occurrences (ks1 ++ ks2))).
    change (first_occurrences (k :: ks1))
      with (k :: filter (fun k' => k' ≠ k) (first_occurrences ks1)).
    rewrite IH, filter_app, filter_filter_and. cbn [app]. do 2 f_equal.
    apply list_filter_iff. intros x. rewrite not_elem_of_cons. tauto.
Qed.

Lemma uniqNodes_NoDup_id (nodes : list Node) :
  NoDup (identities nodes) → uniqNodes nodes = nodes.
Proof.
  intros Hnd. rewrite uniqNodes_unfold, new_Map_id.
  - unfold JSMap.values. rewrite <- list_fmap_compose. apply list_fmap_id.
  - unfold JSMap.keys. by rewrite entries_keys.
Qed.

(** X1.  [uniqNodes] returns records of its input only, never more of
    them than it was given, and it returns the input itself exactly
    when no identity is repeated in it. *)
Theorem uniqNodes_selects_from_input (nodes : list Node) :
  (∀ n, n ∈ uniqNodes nodes → n ∈ nodes) ∧
  (length (uniqNodes nodes) <= length nodes)%nat ∧
  (uniqNodes nodes = nodes ↔ NoDup (identities nodes)).
Proof.
  split_and!.
  - intros n Hn. apply elem_of_uniqNodes in Hn.
    by apply last_occurrence_Some in Hn as [_ Hn].
  - rewrite <- (length_fmap index (uniqNodes nodes)), <- (length_fmap index nodes).
    change (index <$> uniqNodes nodes) with (identities (uniqNodes nodes)).
    rewrite uniqNodes_identities. apply length_first_occurrences.
  - split; [|apply uniqNodes_NoDup_id].
    intros <-. apply NoDup_uniqNodes.
Qed.

(** * Further facts about [transactionHandler] *)

Lemma effects_created_txOf (i : Z) (a : list xrpl.AffectedNode) :
  effects_created (txOf i a) = map toNode (createdNodes a).
Proof. reflexivity. Qed.

Lemma effects_txOf_app (i : Z) (a1 a2 : list xrpl.AffectedNode) :
  effects_created (txOf i (a1 ++ a2)) =
    effects_created (txOf i a1) ++ effects_created (txOf i a2) ∧
  effects_modified (txOf i (a1 ++ a2)) =
    effects_modified (txOf i a1) ++ effects_modified (txOf i a2) ∧
  effects_deleted (txOf i (a1 ++ a2)) =
    effects_deleted (txOf i a1) ++ effects_deleted (txOf i a2).
Proof.
  unfold effects_created, effects_modified, effects_deleted,
    createdNodes, modifiedNodes, deletedNodess. cbn.
  by rewrite !flat_map_app, !map_app.
Qed.

(** X2.  A transaction whose affected nodes are [a1 ++ a2] has the
    effect of two transactions of the same ledger index, the first with
    [a1] and the second with [a2]: how the affected nodes of one ledger
    are cut into transactions does not matter. *)
Theorem transactionHandler_split
    (i : Z) (a1 a2 : list xrpl.AffectedNode) (o : Nodes) :
  transactionHandler (txOf i (a1 ++ a2)) o =
  transactionHandler (txOf i a2) (transactionHandler (txOf i a1) o).
Proof.
  rewrite (transactionHandler_meta (txOf i a2) _ (xrpl.mkMeta a2) eq_refl).
  rewrite (transactionHandler_meta (txOf i a1) o (xrpl.mkMeta a1) eq_refl).
  rewrite (transactionHandler_meta (txOf i (a1 ++ a2)) o (xrpl.mkMeta (a1 ++ a2)) eq_refl).
  cbn [ledgerIndex created modified deleted TransactionStream.ledger_index txOf].
  rewrite Z.ltb_irrefl, !uniqNodes_app_l.
  destruct (effects_txOf_app i a1 a2) as (-> & -> & ->).
  by rewrite !app_assoc.
Qed.

(** X3.  After a transaction with metadata that carries a lower index
    than the stored one, a transaction with metadata of the ledger the
    accumulator was at empties the collections: what had been
    accumulated for that ledger, and what the late transaction added,
    is gone, and only the records of the last transaction remain. *)
Theorem stale_transaction_makes_next_reset
    (o : Nodes) (stale tx : TransactionStream.t) :
  is_Some (TransactionStream.meta stale) →
  is_Some (TransactionStream.meta tx) →
  TransactionStream.ledger_index stale < ledgerIndex o →
  TransactionStream.ledger_index tx = ledgerIndex o →
  transactionHandler tx (transactionHandler stale o) =
  mkNodes (ledgerIndex o)
    (uniqNodes (effects_created tx))
    (uniqNodes (effects_modified tx))
    (uniqNodes (effects_deleted tx)).
Proof.
  intros [ms Hms] [m Hm] Hlt Heq.
  rewrite (transactionHandler_meta tx _ m Hm).
  rewrite (transactionHandler_meta stale o ms Hms). cbn [ledgerIndex].
  assert ((TransactionStream.ledger_index stale <? TransactionStream.ledger_index tx) = true)
    as -> by (apply Z.ltb_lt; lia).
  by rewrite Heq.
Qed.

Lemma stale_transaction_makes_next_reset_witness :
  let o := mkNodes 8 [toNode accountA] [] [] in
  transactionHandler (txOf 8 [xrpl.ModifiedNode accountB]) o =
    mkNodes 8 [toNode accountA] [toNode accountB] [] ∧
  transactionHandler (txOf 8 [xrpl.ModifiedNode accountB])
    (transactionHandler (txOf 7 [xrpl.CreatedNode offerX]) o) =
    mkNodes 8 [] [toNode accountB] [].
Proof.
  intros o. split; [reflexivity |].
  rewrite (stale_transaction_makes_next_reset o
             (txOf 7 [xrpl.CreatedNode offerX]) (txOf 8 [xrpl.ModifiedNode accountB])).
  - reflexivity.
  - eexists; reflexivity.
  - eexists; reflexivity.
  - simpl. lia.
  - reflexivity.
Defined.

(** X4.  Within one ledger the identities already in a collection keep
    their places: for an accumulator whose collections have unique
    identities and a transaction with metadata that empties nothing,
    the identities afterwards are those held before, in the same order,
    followed by the new identities of the transaction in the order of
    their first occurrence. *)
Theorem held_identities_keep_their_place (o : Nodes) (tx : TransactionStream.t) :
  is_Some (TransactionStream.meta tx) →
  TransactionStream.ledger_index tx <= ledgerIndex o →
  unique_identities o →
  let o' := transactionHandler tx o in
  identities (created o') =
    identities (created o) ++
    filter (fun k => k ∉ identities (created o))
           (first_occurrences (identities (effects_created tx))) ∧
  identities (modified o') =
    identities (modified o) ++
    filter (fun k => k ∉ identities (modified o))
           (first_occurrences (identities (effects_modified tx))) ∧
  identities (deleted o') =
    identities (deleted o) ++
    filter (fun k => k ∉ identities (deleted o))
           (first_occurrences (identities (effects_deleted tx))).
Proof.
  intros [m Hm] Hle (Hc & Hmo & Hd) o'. unfold o'.
  rewrite (transactionHandler_meta tx o m Hm).
  assert ((ledgerIndex o <? TransactionStream.ledger_index tx) = false) as ->
    by (apply Z.ltb_ge; lia).
  cbn [created modified deleted]. rewrite !uniqNodes_identities.
  unfold identities in *. rewrite !fmap_app, !first_occurrences_app.
  by rewrite (first_occurrences_NoDup _ Hc), (first_occurrences_NoDup _ Hmo),
    (first_occurrences_NoDup _ Hd).
Qed.

Lemma held_identities_keep_their_place_witness :
  let o := mkNodes 4 [toNode offerX; toNode accountA] [] [] in
  let tx := txOf 4 [xrpl.CreatedNode accountB; xrpl.CreatedNode accountA] in
  identities (created (transactionHandler tx o)) = ["X"; "A"; "B"].
Proof.
  intros o tx.
  destruct (held_identities_keep_their_place o tx) as (Hc & _ & _).
  - eexists; reflexivity.
  - simpl. lia.
  - repeat split; unfold identities; cbn; by apply (bool_decide_unpack _).
  - rewrite Hc. vm_compute. reflexivity.
Defined.


(** * Runs of the component from its mount *)

Lemma run_snoc (s : AppState) (events : list Event) (e : Event) :
  run s (events ++ [e]) = dispatch (run s events) e.
Proof. unfold run. apply foldl_snoc. Qed.

Lemma accumulator_run (events : list Event) (s : AppState) :
  accumulator (run s events) =
  (fun o => fold_transactions o (transactions_of events)) <$> accumulator s.
Proof.
  revert s. induction events as [|e events IH]; intros s.
  - cbn. by destruct (accumulator s).
  - change (run s (e :: events)) with (run (dispatch s e) events).
    rewrite IH, accumulator_dispatch. destruct e as [tx|ledger]; cbn.
    + by destruct (accumulator s).
    + done.
Qed.

Lemma accumulator_mount : accumulator mount = Some initialNodes.
Proof. reflexivity. Qed.

(** X6.  Whatever events arrive after the mount, the accumulator holds
    the fold of the transaction events among them, in their order, from
    the initial accumulator: ledger-closed events have no part in it. *)
Theorem accumulator_is_fold_of_transactions (events : list Event) :
  accumulator (run mount events) =
  Some (fold_transactions initialNodes (transactions_of events)).
Proof. by rewrite accumulator_run, accumulator_mount. Qed.

Lemma run_without_close (events : list Event) (s : AppState) :
  closed_of events = [] →
  state_nodes s ≠ ref_lastNodes s →
  published (run s events) = published s ∧
  state_ledgerIndex (run s events) = state_ledgerIndex s.
Proof.
  revert s. induction events as [|e events IH]; intros s Hnone Hne; [done |].
  destruct e as [tx|ledger]; [|discriminate Hnone].
  change (run s (transaction tx :: events))
    with (run (dispatch s (transaction tx)) events).
  destruct (IH (dispatch s (transaction tx)) Hnone Hne) as [-> ->].
  split; [|done].
  unfold published. cbn. rewrite lookup_alter. by rewrite decide_False.
Qed.

(** X7.  As long as no ledger-closed event has arrived, the component
    shows the empty snapshot it started with and no ledger index,
    whatever transactions have been handled: they change another
    object. *)
Theorem nothing_published_before_first_close (events : list Event) :
  closed_of events = [] →
  published (run mount events) = Some initialNodes ∧
  state_ledgerIndex (run mount events) = None.
Proof. intros Hnone. by apply (run_without_close events mount). Qed.

Lemma nothing_published_before_first_close_witness :
  published (run mount [transaction (txOf 10 [xrpl.CreatedNode accountA]);
                        transaction (txOf 11 [xrpl.DeletedNode offerX])]) =
  Some initialNodes.
Proof.
  apply (nothing_published_before_first_close
           [transaction (txOf 10 [xrpl.CreatedNode accountA]);
            transaction (txOf 11 [xrpl.DeletedNode offerX])]).
  reflexivity.
Defined.

Lemma run_alias_after_close (events : list Event) (s : AppState) :
  closed_of events ≠ [] →
  state_nodes (run s events) = ref_lastNodes (run s events).
Proof.
  revert s. induction events as [|e events IH]; intros s Hsome; [done |].
  change (run s (e :: events)) with (run (dispatch s e) events).
  destruct e as [tx|ledger].
  - by apply IH.
  - by apply run_keeps_alias.
Qed.

(** X8.  Once a ledger-closed event has arrived, what the component's
    state [nodes] shows is the fold of all the transaction events
    received so far, those that came after the last ledger-closed event
    included. *)
Theorem published_after_close_is_fold_of_all_transactions (events : list Event) :
  closed_of events ≠ [] →
  published (run mount events) =
  Some (fold_transactions initialNodes (transactions_of events)).
Proof.
  intros Hsome. unfold published. rewrite run_alias_after_close by done.
  change (accumulator (run mount events) =
          Some (fold_transactions initialNodes (transactions_of events))).
  by rewrite accumulator_run, accumulator_mount.
Qed.

Lemma published_after_close_is_fold_of_all_transactions_witness :
  published (run mount [transaction (txOf 10 [xrpl.CreatedNode accountA]);
                        ledgerClosed (LedgerStream.mk 11);
                        transaction (txOf 10 [xrpl.ModifiedNode accountB])]) =
  Some (mkNodes 10 [toNode accountA] [toNode accountB] []).
Proof.
  rewrite (published_after_close_is_fold_of_all_transactions
             [transaction (txOf 10 [xrpl.CreatedNode accountA]);
              ledgerClosed (LedgerStream.mk 11);
              transaction (txOf 10 [xrpl.ModifiedNode accountB])]).
  - reflexivity.
  - simpl. discriminate.
Defined.

Lemma state_ledgerIndex_run (events : list Event) (s : AppState) :
  state_ledgerIndex (run s events) =
  match last (closed_of events) with
  | Some ledger => Some (LedgerStream.ledger_index ledger - 1)
  | None => state_ledgerIndex s
  end.
Proof.
  induction events as [|e events IH] using rev_ind; [done |].
  rewrite run_snoc. unfold closed_of in *. rewrite flat_map_app, last_app.
  destruct e as [tx|ledger]; cbn.
  - by rewrite IH.
  - done.
Qed.

(** X9.  The ledger index the component displays is the index of the
    last ledger-closed event received, less one, and nothing before the
    first such event; transaction events never change it. *)
Theorem displayed_ledgerIndex_is_last_closed (events : list Event) :
  state_ledgerIndex (run mount events) =
  (fun ledger => LedgerStream.ledger_index ledger - 1) <$> last (closed_of events).
Proof.
  rewrite state_ledgerIndex_run. by destruct (last (closed_of events)).
Qed.

(** * The catalogue and the render *)

Lemma includes_spec (l : list string) (x : string) : includes l x = true ↔ x ∈ l.
Proof.
  unfold includes. rewrite existsb_exists, list_elem_of_In. split.
  - intros (y & Hy & ->%String.eqb_eq). done.
  - intros Hx. exists x. split; [done | apply String.eqb_refl].
Qed.

Lemma filter_bool_Prop {A : Type} (f : A → bool) (P : A → Prop)
    `{!∀ x, Decision (P x)} (l : list A) :
  (∀ x, f x = true ↔ P x) → List.filter f l = filter P l.
Proof.
  intros Hf. induction l as [|x l IH]; [done |].
  cbn [List.filter]. rewrite filter_cons, IH.
  destruct (f x) eqn:Hx.
  - rewrite decide_True; [done | by apply Hf].
  - rewrite decide_False; [done |]. intros HP%Hf. congruence.
Qed.

Lemma filter_not_includes (L l : list string) :
  List.filter (fun entry => negb (includes L entry)) l = filter (fun entry => entry ∉ L) l.
Proof.
  apply filter_bool_Prop. intros x.
  rewrite negb_true_iff, <- not_true_iff_false. by rewrite includes_spec.
Qed.

Lemma panel_keys (nodes : Nodes) (entries : list string) :
  Panel.key <$> map (renderPanel nodes) entries = entries.
Proof. induction entries as [|e entries IH]; [done |]. cbn. by rewrite IH. Qed.

(** X10.  The cards shown are those of the names the server lists
    that are in neither of the two fixed lists, each name the server
    lists once giving one card; when the answer has no
    [LEDGER_ENTRY_TYPES] no card is shown. *)
Theorem panels_are_the_enabled_catalogue_entries
    (response : ServerDefinitions.t) (ledgerIndex : option Z) (nodes : Nodes) :
  let names := Object_keys (default [] (ServerDefinitions.LEDGER_ENTRY_TYPES response)) in
  let v := render ledgerIndex (serverDefinitionsHandler response) nodes in
  (∀ entry, entry ∈ Panel.key <$> View.panels v ↔
            entry ∈ names ∧ (entry ∉ ignoredLedgerEntries) ∧
            (entry ∉ nonEnabledLedgerEntries)) ∧
  (NoDup names → NoDup (Panel.key <$> View.panels v)) ∧
  ((Panel.key <$> View.panels v) `sublist_of` names) ∧
  (ServerDefinitions.LEDGER_ENTRY_TYPES response = None → View.panels v = []).
Proof.
  intros names v.
  assert (Hkeys : Panel.key <$> View.panels v =
                  filter (fun e => e ∉ nonEnabledLedgerEntries)
                         (filter (fun e => e ∉ ignoredLedgerEntries) names)).
  { unfold v, render, serverDefinitionsHandler. cbn [View.panels].
    by rewrite panel_keys, !filter_not_includes. }
  split_and!.
  - intros entry. rewrite Hkeys, !list_elem_of_filter. tauto.
  - intros Hnd. rewrite Hkeys. by do 2 apply NoDup_filter.
  - rewrite Hkeys. etransitivity; apply sublist_filter.
  - intros Hnone. unfold v, render, serverDefinitionsHandler. by rewrite Hnone.
Qed.

Lemma panels_are_the_enabled_catalogue_entries_witness :
  let response :=
    ServerDefinitions.mk
      (Some [("AccountRoot", 97); ("Any", -3); ("Bridge", 105); ("Offer", 111)]) in
  Panel.key <$> View.panels (render None (serverDefinitionsHandler response) initialNodes) =
    ["AccountRoot"; "Offer"] ∧
  NoDup (Panel.key <$>
           View.panels (render None (serverDefinitionsHandler response) initialNodes)).
Proof.
  intros response. split; [reflexivity |].
  apply (panels_are_the_enabled_catalogue_entries response None initialNodes).
  by apply (bool_decide_unpack _).
Defined.

Lemma box_keys (g : nat → nat) (c : string) (l : list Node) :
  Box.key <$> imap (fun i node => Box.mk (index node) (g i) c) l = identities l.
Proof.
  rewrite fmap_imap, (imap_ext _ (const index)); [apply imap_const | done].
Qed.

Lemma box_indexes (g : nat → nat) (c : string) (l : list Node) :
  Box.index <$> imap (fun i node => Box.mk (index node) (g i) c) l =
  g <$> seq 0 (length l).
Proof.
  rewrite fmap_imap, (imap_ext _ (fun j _ => g j)); [apply imap_seq_0 | done].
Qed.

Lemma NoDup_identities_filter (P : Node → Prop) `{!∀ n, Decision (P n)}
    (l : list Node) :
  NoDup (identities l) → NoDup (identities (filter P l)).
Proof.
  intros Hnd. eapply sublist_NoDup; [exact Hnd |].
  unfold identities. apply fmap_sublist, sublist_filter.
Qed.

Lemma published_run_cases (events : list Event) :
  published (run mount events) = Some initialNodes ∨
  published (run mount events) =
    Some (fold_transactions initialNodes (transactions_of events)).
Proof.
  destruct (closed_of events) as [|l ls] eqn:Hclosed.
  - left. by destruct (run_without_close events mount Hclosed) as [-> _].
  - right. unfold published. rewrite run_alias_after_close by (by rewrite Hclosed).
    change (accumulator (run mount events) =
            Some (fold_transactions initialNodes (transactions_of events))).
    by rewrite accumulator_run, accumulator_mount.
Qed.

Lemma published_run_unique (events : list Event) (o : Nodes) :
  published (run mount events) = Some o → unique_identities o.
Proof.
  destruct (published_run_cases events) as [-> | ->]; intros [= <-].
  - apply initialNodes_unique.
  - apply fold_transactions_unique, initialNodes_unique.
Qed.

Lemma published_run_is_Some (events : list Event) :
  is_Some (published (run mount events)).
Proof. destruct (published_run_cases events) as [-> | ->]; by eexists. Qed.

(** X11.  After the mount, whatever events were handled, the component
    renders, and the React keys of the boxes are pairwise distinct
    within each of the three rows and within each of the three lists of
    every card. *)
Theorem rendered_keys_are_unique (ledgerEntries : list string) (events : list Event) :
  ∃ v, renderApp ledgerEntries (run mount events) = Some v ∧
       NoDup (Box.key <$> View.created v) ∧
       NoDup (Box.key <$> View.modified v) ∧
       NoDup (Box.key <$> View.deleted v) ∧
       (∀ p, p ∈ View.panels v →
             NoDup (Box.key <$> Panel.created p) ∧
             NoDup (Box.key <$> Panel.modified p) ∧
             NoDup (Box.key <$> Panel.deleted p)).
Proof.
  unfold renderApp.
  destruct (published_run_is_Some events) as [o Hpub]. rewrite Hpub.
  eexists. split; [reflexivity |].
  apply published_run_unique in Hpub as (Hc & Hm & Hd).
  unfold render. cbn [View.created View.modified View.deleted View.panels].
  rewrite !(box_keys id). split_and!; try done.
  intros p Hp. apply list_elem_of_In, in_map_iff in Hp as (entry & <- & _).
  unfold renderPanel, nodesByLedgerEntryType.
  cbn [Panel.created Panel.modified Panel.deleted
       ByType.created ByType.modified ByType.deleted].
  rewrite (box_keys id), box_keys, box_keys, !filter_eqb_decide.
  split_and!; by apply NoDup_identities_filter.
Qed.

(** X12.  In a card the boxes carry, in the order they are displayed
    (created, then modified, then deleted), the indexes 0, 1, 2, ...
    without gap or repetition; in each of the three rows they count
    from 0 as well. *)
Theorem box_indexes_are_consecutive
    (ledgerIndex : option Z) (ledgerEntries : list string) (nodes : Nodes)
    (entry : string) :
  Box.index <$> panelBoxes (renderPanel nodes entry) =
    seq 0 (length (panelBoxes (renderPanel nodes entry))) ∧
  Box.index <$> View.created (render ledgerIndex ledgerEntries nodes) =
    seq 0 (length (created nodes)) ∧
  Box.index <$> View.modified (render ledgerIndex ledgerEntries nodes) =
    seq 0 (length (modified nodes)) ∧
  Box.index <$> View.deleted (render ledgerIndex ledgerEntries nodes) =
    seq 0 (length (deleted nodes)).
Proof.
  split_and!.
  - unfold panelBoxes, renderPanel.
    cbn [Panel.created Panel.modified Panel.deleted].
    rewrite !length_app, !length_imap, !fmap_app.
    rewrite (box_indexes id), !box_indexes, list_fmap_id.
    set (a := length (ByType.created (nodesByLedgerEntryType nodes entry))).
    set (b := length (ByType.modified (nodesByLedgerEntryType nodes entry))).
    set (c := length (ByType.deleted (nodesByLedgerEntryType nodes entry))).
    rewrite !seq_app, (fmap_add_seq a 0 b).
    change (fun i : nat => (a + b + i)%nat) with (Nat.add (a + b)).
    rewrite (fmap_add_seq (a + b) 0 c).
    by rewrite !Nat.add_0_r, !Nat.add_0_l.
  - unfold render. cbn [View.created]. by rewrite (box_indexes id), list_fmap_id.
  - unfold render. cbn [View.modified]. by rewrite (box_indexes id), list_fmap_id.
  - unfold render. cbn [View.deleted]. by rewrite (box_indexes id), list_fmap_id.
Qed.

Lemma panel_box_keys (nodes : Nodes) (shown : list string) :
  Box.key <$> (map (renderPanel nodes) shown ≫= Panel.created) =
    identities (shown ≫= fun e => filter (fun n => LedgerEntryType n = e) (created nodes)) ∧
  Box.key <$> (map (renderPanel nodes) shown ≫= Panel.modified) =
    identities (shown ≫= fun e => filter (fun n => LedgerEntryType n = e) (modified nodes)) ∧
  Box.key <$> (map (renderPanel nodes) shown ≫= Panel.deleted) =
    identities (shown ≫= fun e => filter (fun n => LedgerEntryType n = e) (deleted nodes)).
Proof.
  unfold identities. induction shown as [|e shown (IHc & IHm & IHd)]; [done |].
  cbn [map]. rewrite !bind_cons, !fmap_app, IHc, IHm, IHd.
  unfold renderPanel, nodesByLedgerEntryType.
  cbn [Panel.created Panel.modified Panel.deleted
       ByType.created ByType.modified ByType.deleted].
  rewrite (box_keys id), box_keys, box_keys, !filter_eqb_decide. done.
Qed.

(** X13.  When the catalogue names are pairwise distinct, the created
    boxes of all the cards together are, up to order, the created
    records whose entry type is a catalogue name outside the
    not-enabled list, each record once; likewise for the modified and
    the deleted boxes.  A record of any other entry type is in a row
    but in no card. *)
Theorem cards_show_each_enabled_record_once
    (ledgerIndex : option Z) (ledgerEntries : list string) (nodes : Nodes) :
  NoDup ledgerEntries →
  let v := render ledgerIndex ledgerEntries nodes in
  let shown := fun n : Node =>
    LedgerEntryType n ∈ ledgerEntries ∧ LedgerEntryType n ∉ nonEnabledLedgerEntries in
  Box.key <$> (View.panels v ≫= Panel.created) ≡ₚ
    identities (filter shown (created nodes)) ∧
  Box.key <$> (View.panels v ≫= Panel.modified) ≡ₚ
    identities (filter shown (modified nodes)) ∧
  Box.key <$> (View.panels v ≫= Panel.deleted) ≡ₚ
    identities (filter shown (deleted nodes)).
Proof.
  intros Hnd v shown. unfold v, render. cbn [View.panels].
  rewrite filter_not_includes.
  set (names := filter (fun e => e ∉ nonEnabledLedgerEntries) ledgerEntries).
  assert (Hnames : NoDup names) by by apply NoDup_filter.
  assert (Hshown : ∀ l : list Node,
            filter (fun n => LedgerEntryType n ∈ names) l = filter shown l).
  { intros l. apply list_filter_iff. intros n. unfold names, shown.
    rewrite list_elem_of_filter. tauto. }
  destruct (panel_box_keys nodes names) as (-> & -> & ->).
  unfold identities. rewrite <- !Hshown.
  split_and!; apply fmap_Permutation, filter_by_keys, Hnames.
Qed.

Lemma cards_show_each_enabled_record_once_witness :
  let nodes := mkNodes 10 [mkNode "Bridge" "1"; toNode accountA; toNode offerX;
                           mkNode "Unknown" "2"; toNode accountB] [] [] in
  let v := render None ["Offer"; "Bridge"; "AccountRoot"] nodes in
  Box.key <$> (View.panels v ≫= Panel.created) ≡ₚ ["A"; "X"; "B"].
Proof.
  intros nodes v.
  destruct (cards_show_each_enabled_record_once None ["Offer"; "Bridge"; "AccountRoot"] nodes)
    as (Hc & _ & _).
  - by apply (bool_decide_unpack _).
  - etransitivity; [exact Hc |]. by vm_compute.
Defined.

(** * The snapshot of an ordered stream *)

Lemma ascending_head_le_last (a L : Z) (l : list Z) :
  ascending (a :: l) → last l = Some L → a <= L.
Proof.
  revert a. induction l as [|b l IH]; intros a Hasc Hlast; [done |].
  destruct Hasc as [Hab Hasc]. destruct l as [|c l].
  - injection Hlast as <-. done.
  - specialize (IH b Hasc Hlast). lia.
Qed.

Lemma fold_transactions_ordered (txs : list TransactionStream.t) (o : Nodes) (L : Z) :
  Forall (fun tx => is_Some (TransactionStream.meta tx)) txs →
  ascending (ledgerIndex o :: map TransactionStream.ledger_index txs) →
  last (map TransactionStream.ledger_index txs) = Some L →
  fold_transactions o txs =
  mkNodes L
    (uniqNodes ((if ledgerIndex o <? L then [] else created o) ++
                (filter (fun tx => TransactionStream.ledger_index tx = L) txs
                   ≫= effects_created)))
    (uniqNodes ((if ledgerIndex o <? L then [] else modified o) ++
                (filter (fun tx => TransactionStream.ledger_index tx = L) txs
                   ≫= effects_modified)))
    (uniqNodes ((if ledgerIndex o <? L then [] else deleted o) ++
                (filter (fun tx => TransactionStream.ledger_index tx = L) txs
                   ≫= effects_deleted))).
Proof.
  revert o. induction txs as [|tx txs IH]; intros o Hmeta Hasc Hlast; [done |].
  apply Forall_cons in Hmeta as [[m Hm] Hmeta].
  change (fold_transactions o (tx :: txs))
    with (fold_transactions (transactionHandler tx o) txs).
  destruct txs as [|tx2 txs].
  - injection Hlast as <-. cbn [fold_transactions foldl].
    rewrite (transactionHandler_meta tx o m Hm).
    rewrite filter_cons_True, filter_nil by done.
    rewrite !bind_cons. cbn [mbind list_bind]. by rewrite !app_nil_r.
  - destruct Hasc as [Hle Hasc].
    assert (Hidx : ledgerIndex (transactionHandler tx o) = TransactionStream.ledger_index tx).
    { by rewrite transactionHandler_ledgerIndex, Hm. }
    assert (HL : TransactionStream.ledger_index tx <= L).
    { eapply ascending_head_le_last; [exact Hasc | exact Hlast]. }
    rewrite (IH (transactionHandler tx o) Hmeta); [| by rewrite Hidx | exact Hlast].
    rewrite Hidx. destruct (decide (TransactionStream.ledger_index tx = L)) as [HeqL|HneL].
    + rewrite (filter_cons_True _ tx) by done. rewrite !bind_cons.
      rewrite (transactionHandler_meta tx o m Hm). cbn [created modified deleted].
      rewrite HeqL, Z.ltb_irrefl, !uniqNodes_app_l. by rewrite !app_assoc.
    + rewrite (filter_cons_False _ tx) by done.
      assert ((TransactionStream.ledger_index tx <? L) = true) as ->
        by (apply Z.ltb_lt; lia).
      assert ((ledgerIndex o <? L) = true) as -> by (apply Z.ltb_lt; lia).
      done.
Qed.

(** X14.  For transactions with metadata that arrive in the order of
    their ledgers, once a ledger above the one the accumulator was at
    has been reached, the accumulator holds the index of the latest
    ledger, and each collection is the deduplication of the records of
    that kind carried by the transactions of the latest ledger, in their
    order: nothing of an earlier ledger is left and nothing of the
    latest is missing. *)
Theorem snapshot_is_the_latest_ledger
    (o : Nodes) (txs : list TransactionStream.t) (L : Z) :
  Forall (fun tx => is_Some (TransactionStream.meta tx)) txs →
  ascending (ledgerIndex o :: map TransactionStream.ledger_index txs) →
  last (map TransactionStream.ledger_index txs) = Some L →
  ledgerIndex o < L →
  fold_transactions o txs =
  mkNodes L
    (uniqNodes (filter (fun tx => TransactionStream.ledger_index tx = L) txs
                  ≫= effects_created))
    (uniqNodes (filter (fun tx => TransactionStream.ledger_index tx = L) txs
                  ≫= effects_modified))
    (uniqNodes (filter (fun tx => TransactionStream.ledger_index tx = L) txs
                  ≫= effects_deleted)).
Proof.
  intros Hmeta Hasc Hlast Hlt.
  rewrite (fold_transactions_ordered txs o L Hmeta Hasc Hlast).
  apply Z.ltb_lt in Hlt. by rewrite Hlt.
Qed.

Lemma snapshot_is_the_latest_ledger_witness :
  fold_transactions initialNodes
    [txOf 5 [xrpl.CreatedNode offerX];
     txOf 6 [xrpl.CreatedNode accountA; xrpl.ModifiedNode accountB];
     txOf 6 [xrpl.CreatedNode accountB; xrpl.ModifiedNode accountB]] =
  mkNodes 6 [toNode accountA; toNode accountB] [toNode accountB] [].
Proof.
  rewrite (snapshot_is_the_latest_ledger initialNodes _ 6).
  - reflexivity.
  - repeat constructor; eexists; reflexivity.
  - simpl. lia.
  - reflexivity.
  - simpl. lia.
Defined.
